(** * gocql cluster events: debouncer, node event aggregation, lifecycle handlers

    A shallow embedding of [events.go].  The debouncer is a record that is
    passed explicitly through [debounce] and [flush]; the session handlers run
    in a small state monad over the session, which holds the ring, the host
    objects the ring points to, and the trace of calls made to the
    collaborators (control connection, ring, pool, host source, process log). *)

From Stdlib Require Import ZArith Lia.
From stdpp Require Import gmap strings list fin_maps pretty.

Open Scope Z_scope.
Open Scope nat_scope.

(** ** Data *)

(** [net.IP] is a byte slice. *)
Definition IP := list Byte.byte.

(** Go's [error] values, kept by their message. *)
Definition error := string.

(** Host objects live in a store and are referred to by their index there,
    the way the Go code passes [*HostInfo] around. *)
Abbreviation loc := nat.

(** Modelled from the spec: the notification variants produced by the frame
    decoder (the frame types are declared outside [events.go]).  Topology and
    status changes carry [change], [host] and [port]; the three schema-change
    frames and every other frame type carry nothing this file reads. *)
Inductive frame : Type :=
| topologyChangeEventFrame (change : string) (host : IP) (port : Z)
| statusChangeEventFrame (change : string) (host : IP) (port : Z)
| schemaChangeKeyspace (payload : string)
| schemaChangeFunction (payload : string)
| schemaChangeTable (payload : string)
| otherFrame (kind : string).

(** The lines written with [log.Printf] and [log.Println], one constructor per
    call site, carrying the values that are formatted. *)
Inductive logLine : Type :=
| LogFlushing (name : string) (n : nat)
| LogBuffering (name : string) (f : frame)
| LogDropping (name : string) (f : frame)
| LogHandlingDebounced (addr change : string)
| LogParseError (err : error)
| LogFrame (f : frame)
| LogInvalidFrame (f : frame)
| LogFetchFailed (host : IP) (err : error)
| LogAlreadyHave (hostInfo existing : loc).

(** ** The event debouncer *)

Definition eventBufferSize : nat := 1000.

(** [timerArmed] stands for [e.timer] (armed by [Reset], disarmed by [Stop] and
    by firing); [spawned] lists the batches handed to [go e.callback(...)],
    oldest first; [written] the lines the debouncer logged, oldest first. *)
Record eventDeouncer : Type := mkDebouncer {
  name : string;
  timerArmed : bool;
  events : list frame;
  spawned : list (list frame);
  written : list logLine
}.

(** [newEventDeouncer]: the timer is created and stopped at once.  The
    callback is not stored: what it is called with is recorded in [spawned].
    The [quit] channel, [stop] and the [select] loop of [flusher] are
    goroutine plumbing; of the loop only its timer case is kept, as
    [flusherTimerFired] below. *)
Definition newEventDeouncer (nm : string) : eventDeouncer :=
  {| name := nm; timerArmed := false; events := []; spawned := []; written := [] |}.

Definition dlog (l : logLine) (e : eventDeouncer) : eventDeouncer :=
  {| name := name e; timerArmed := timerArmed e; events := events e;
     spawned := spawned e; written := written e ++ [l] |}.

(** [flush], called with [mu] held. *)
Definition flush (e : eventDeouncer) : eventDeouncer :=
  let e := dlog (LogFlushing (name e) (length (events e))) e in
  if Nat.eqb (length (events e)) 0 then e
  else
    {| name := name e; timerArmed := timerArmed e;
       events := [];
       spawned := spawned e ++ [events e];
       written := written e |}.

Definition debounce (fr : frame) (e : eventDeouncer) : eventDeouncer :=
  let e := {| name := name e; timerArmed := true; events := events e;
              spawned := spawned e; written := written e |} in
  if Nat.ltb (length (events e)) eventBufferSize then
    let e := dlog (LogBuffering (name e) fr) e in
    {| name := name e; timerArmed := timerArmed e;
       events := events e ++ [fr];
       spawned := spawned e; written := written e |}
  else
    dlog (LogDropping (name e) fr) e.

(** The [<-e.timer.C] case of [flusher]: the timer has fired, [flush] runs
    under the lock. *)
Definition flusherTimerFired (e : eventDeouncer) : eventDeouncer :=
  flush {| name := name e; timerArmed := false; events := events e;
           spawned := spawned e; written := written e |}.

(** A run of [debounce] calls, in call order. *)
Definition debounceAll (frs : list frame) (e : eventDeouncer) : eventDeouncer :=
  foldl (fun e fr => debounce fr e) e frs.

(** *** The debouncer over its lifetime *)

(** The [select] of [flusher] takes its timer case or its quit case. *)
Inductive selectCase : Type := timerC | quitC.

(** What happens to one debouncer, in the order the lock and the channels
    serialise it: a producer goroutine runs [debounce], or the flusher's
    [select] takes a case. *)
Inductive action : Type :=
| producerDebounce (fr : frame)
| flusherSelect (c : selectCase).

(** [flusher]: the loop runs until its quit case is taken, flushing under the
    lock at each timer case, while producers go on calling [debounce].  The
    result is the debouncer when the loop returns (or the schedule ends)
    together with what is still to happen. *)
Fixpoint flusher (schedule : list action) (e : eventDeouncer)
    : eventDeouncer * list action :=
  match schedule with
  | [] => (e, [])
  | producerDebounce fr :: rest => flusher rest (debounce fr e)
  | flusherSelect timerC :: rest => flusher rest (flusherTimerFired e)
  | flusherSelect quitC :: rest => (e, rest)
  end.

(** Once [flusher] has returned nothing receives from [e.timer.C] or
    [e.quit] any more; producers may still call [debounce]. *)
Fixpoint producersOnly (schedule : list action) (e : eventDeouncer) : eventDeouncer :=
  match schedule with
  | [] => e
  | producerDebounce fr :: rest => producersOnly rest (debounce fr e)
  | flusherSelect _ :: rest => producersOnly rest e
  end.

(** A debouncer from [go e.flusher()] on: the loop, then what is left. *)
Definition lifetime (schedule : list action) (e : eventDeouncer) : eventDeouncer :=
  let '(e', rest) := flusher schedule e in producersOnly rest e'.

(** The frames the debouncer logged as buffered, and as dropped, oldest first. *)
Definition bufferedFrames (lines : list logLine) : list frame :=
  omap (fun l => match l with LogBuffering _ f => Some f | _ => None end) lines.

Definition droppedFrames (lines : list logLine) : list frame :=
  omap (fun l => match l with LogDropping _ f => Some f | _ => None end) lines.

(** The frames given to [debounce] in a schedule, in call order. *)
Definition produced (schedule : list action) : list frame :=
  omap (fun a => match a with producerDebounce f => Some f | _ => None end) schedule.

(** The buffer is within capacity, and so is every batch handed to the
    callback, none of which is empty. *)
Definition wellSized (e : eventDeouncer) : Prop :=
  length (events e) ≤ eventBufferSize
  ∧ Forall (fun batch => batch ≠ [] ∧ length batch ≤ eventBufferSize) (spawned e).

(** Every frame logged as buffered is in a delivered batch or still pending,
    once and in order. *)
Definition accountedFor (e : eventDeouncer) : Prop :=
  bufferedFrames (written e) = concat (spawned e) ++ events e.

(** ** The session and its collaborators *)

Inductive nodeState : Type := NodeUp | NodeDown.

(** Modelled from the spec: a host has an address, a port, an availability
    state and the metadata fetched on discovery ([HostInfo] is declared outside
    [events.go]). *)
Record HostInfo : Type := mkHost {
  peer : IP;
  hostPort : Z;
  state : nodeState;
  info : string
}.

Definition setState (st : nodeState) (h : HostInfo) : HostInfo :=
  {| peer := peer h; hostPort := hostPort h; state := st; info := info h |}.

(** Modelled from the spec: the control connection answers
    [fetchHostInfo(ip, port)] with a host or an error. *)
Inductive fetchResult : Type :=
| Fetched (h : HostInfo)
| FetchFailed (err : error).

Record controlConn : Type := mkControl {
  fetchHostInfo : IP → Z → fetchResult
}.

(** Modelled from the spec: the decoder yields one notification per call, or
    fails; a framer is given by what its [parseFrame] returns. *)
Inductive parseResult : Type :=
| Parsed (f : frame)
| ParseFailed (err : error).

Record framer : Type := mkFramer {
  parseFrame : parseResult
}.

(** Every call that leaves [events.go], in program order. *)
Inductive call : Type :=
| FetchHostInfo (host : IP) (port : Z)
| RingAddHostIfMissing (h : loc)
| RingRemoveHost (addr : string)
| RingGetHost (addr : string)
| HostUpdate (existing from : loc)
| HostSetState (h : loc) (st : nodeState)
| PoolAddHost (h : loc)
| PoolRemoveHost (addr : string)
| PoolHostUp (h : loc)
| PoolHostDown (addr : string)
| RefreshRing
| FramerPoolPut (fr : framer)
| Logged (l : logLine).

(** [control] is [s.control] ([None] for nil); [hosts] the host objects, a
    [*HostInfo] being an index into it; [ring] is the ring's address table;
    [nodeEvents] the debouncer; [trace] the calls made so far, oldest first. *)
Record Session : Type := mkSession {
  control : option controlConn;
  hosts : list HostInfo;
  ring : gmap string loc;
  nodeEvents : eventDeouncer;
  trace : list call
}.

Definition withHosts (hs : list HostInfo) (s : Session) : Session :=
  {| control := control s; hosts := hs; ring := ring s;
     nodeEvents := nodeEvents s; trace := trace s |}.

Definition withRing (r : gmap string loc) (s : Session) : Session :=
  {| control := control s; hosts := hosts s; ring := r;
     nodeEvents := nodeEvents s; trace := trace s |}.

Definition withNodeEvents (e : eventDeouncer) (s : Session) : Session :=
  {| control := control s; hosts := hosts s; ring := ring s;
     nodeEvents := e; trace := trace s |}.

Definition withTrace (t : list call) (s : Session) : Session :=
  {| control := control s; hosts := hosts s; ring := ring s;
     nodeEvents := nodeEvents s; trace := t |}.

(** The calls made to the connection pool. *)
Definition isPoolCall (c : call) : bool :=
  match c with
  | PoolAddHost _ | PoolRemoveHost _ | PoolHostUp _ | PoolHostDown _ => true
  | _ => false
  end.

Definition poolCalls (t : list call) : list call := List.filter isPoolCall t.

(** The lines [handleNodeEvent] logs as it dispatches, one per resolved event. *)
Definition isDispatchLog (c : call) : bool :=
  match c with
  | Logged (LogHandlingDebounced _ _) => true
  | _ => false
  end.

Definition dispatchLog (t : list call) : list call := List.filter isDispatchLog t.

(** *** A state monad over the session *)

Definition M (A : Type) : Type := Session → A * Session.

Definition ret {A : Type} (a : A) : M A := fun s => (a, s).

Definition bind {A B : Type} (m : M A) (k : A → M B) : M B :=
  fun s => let (a, s') := m s in k a s'.

Declare Scope session_scope.
Delimit Scope session_scope with session.

Notation "x <- m ;; k" := (bind m (fun x => k))
  (at level 100, m at next level, k at level 200, right associativity) : session_scope.
Notation "m ;;; k" := (bind m (fun _ => k))
  (at level 100, k at level 200, right associativity) : session_scope.

Open Scope session_scope.

Definition emit (c : call) : M unit :=
  fun s => (tt, withTrace (trace s ++ [c]) s).

Definition logf (l : logLine) : M unit := emit (Logged l).

Definition getControl : M (option controlConn) := fun s => (control s, s).

(** Two stand-ins used to run the model on concrete inputs: the dotted
    decimal rendering, which is what [net.IP.String] prints for a four-byte
    address, and an [update] that takes over the fetched metadata. *)
Definition dottedDecimal (ip : IP) : string :=
  String.concat "." (List.map (fun b => pretty (Byte.to_N b)) ip).

Definition takeInfo (h from : HostInfo) : HostInfo :=
  {| peer := peer h; hostPort := hostPort h; state := state h; info := info from |}.

(** The resolved event kept per host by [handleNodeEvent]. *)
Record nodeEvent : Type := mkNodeEvent {
  change : string;
  host : IP;
  port : Z
}.

Definition setChange (c : string) (ev : nodeEvent) : nodeEvent :=
  {| change := c; host := host ev; port := port ev |}.

(** The handler a resolved event is dispatched to, with its arguments. *)
Inductive lifecycleCall : Type :=
| CallNewNode (host : IP) (port : Z)
| CallRemovedNode (ip : IP) (port : Z)
| CallNodeUp (ip : IP) (port : Z)
| CallNodeDown (ip : IP) (port : Z).

Definition callIP (c : lifecycleCall) : IP :=
  match c with
  | CallNewNode ip _ | CallRemovedNode ip _ | CallNodeUp ip _ | CallNodeDown ip _ => ip
  end.

Definition callPort (c : lifecycleCall) : Z :=
  match c with
  | CallNewNode _ p | CallRemovedNode _ p | CallNodeUp _ p | CallNodeDown _ p => p
  end.

(** ** Sample inputs *)

(** 10.0.0.1 and 10.0.0.2. *)
Definition ipA : IP := [Byte.x0a; Byte.x00; Byte.x00; Byte.x01].
Definition ipB : IP := [Byte.x0a; Byte.x00; Byte.x00; Byte.x02].

Definition hostA : HostInfo := mkHost ipA 9042 NodeDown "dc1".

Definition answering : controlConn :=
  mkControl (fun ip p => Fetched (mkHost ip p NodeUp "fetched")).

Definition failing : controlConn :=
  mkControl (fun _ _ => FetchFailed "timeout").

Definition sessionWith (ctl : option controlConn) (hs : list HostInfo)
    (r : gmap string loc) : Session :=
  mkSession ctl hs r (newEventDeouncer "nodes") [].

(** A session that knows no host, and one whose ring holds 10.0.0.1. *)
Definition emptySession : Session := sessionWith (Some answering) [] ∅.
Definition knownSession : Session :=
  sessionWith (Some answering) [hostA] {[ "10.0.0.1" := 0 ]}.

(** 10.0.0.1 goes down and comes back (on another port), 10.0.0.2 joins. *)
Definition sampleBatch : list frame :=
  [ statusChangeEventFrame "DOWN" ipA 9042;
    topologyChangeEventFrame "NEW_NODE" ipB 9042;
    statusChangeEventFrame "UP" ipA 9043 ].

(** Two events, a flush, a third event, then quit, then a late event and a
    late timer. *)
Definition sampleSchedule : list action :=
  [ producerDebounce (statusChangeEventFrame "DOWN" ipA 9042);
    producerDebounce (statusChangeEventFrame "UP" ipA 9042);
    flusherSelect timerC;
    producerDebounce (topologyChangeEventFrame "NEW_NODE" ipB 9042);
    flusherSelect quitC;
    producerDebounce (statusChangeEventFrame "UP" ipB 9042);
    flusherSelect timerC ].

(** What the decoder hands over: a status change, a schema change, a frame
    that does not parse, a topology change, and some other frame. *)
Definition sampleFramers : list framer :=
  [ mkFramer (Parsed (statusChangeEventFrame "DOWN" ipA 9042));
    mkFramer (Parsed (schemaChangeTable "ks.t"));
    mkFramer (ParseFailed "short read");
    mkFramer (Parsed (topologyChangeEventFrame "NEW_NODE" ipB 9042));
    mkFramer (Parsed (otherFrame "READY")) ].

(** A batch for 10.0.0.1 alone, and one with kinds no handler takes. *)
Definition oneHostBatch : list frame :=
  [ statusChangeEventFrame "DOWN" ipA 9042;
    schemaChangeTable "ks.t";
    statusChangeEventFrame "UP" ipA 9043 ].

Definition unhandledBatch : list frame :=
  [ topologyChangeEventFrame "MOVED_NODE" ipA 9042;
    statusChangeEventFrame "up" ipB 9042 ].

Section Events.

(** [net.IP.String], from Go's standard library. *)
Variable IPString : IP → string.

(** [existing.update(hostInfo)]: what the host keeps of the fetched
    metadata is decided outside [events.go]. *)
Variable update : HostInfo → HostInfo → HostInfo.

(** The order in which Go's [range] walks the [events] map: some
    enumeration of its entries. *)
Variable rangeOrder : gmap string nodeEvent → list (string * nodeEvent).

(** *** Collaborators *)

(** [s.control.fetchHostInfo(host, port)]; a fetched host is a new object. *)
Definition control_fetchHostInfo (ctl : controlConn) (host : IP) (port : Z)
  : M (loc + error) :=
  fun s =>
    let s := withTrace (trace s ++ [FetchHostInfo host port]) s in
    match fetchHostInfo ctl host port with
    | Fetched h => (inl (length (hosts s)), withHosts (hosts s ++ [h]) s)
    | FetchFailed err => (inr err, s)
    end.

(** Modelled from the spec: [addHostIfMissing(hostInfo) → (existing,
    wasAdded)], keyed by the host's address. *)
Definition ring_addHostIfMissing (hostInfo : loc) : M (loc * bool) :=
  fun s =>
    let s := withTrace (trace s ++ [RingAddHostIfMissing hostInfo]) s in
    match hosts s !! hostInfo with
    | None => ((hostInfo, true), s) (* no such object: not a fetched host *)
    | Some h =>
        let addr := IPString (peer h) in
        match ring s !! addr with
        | Some existing => ((existing, false), s)
        | None => ((hostInfo, true), withRing (<[addr := hostInfo]> (ring s)) s)
        end
    end.

(** Modelled from the spec: [removeHost(address)]. *)
Definition ring_removeHost (addr : string) : M unit :=
  fun s =>
    (tt, withRing (delete addr (ring s))
           (withTrace (trace s ++ [RingRemoveHost addr]) s)).

(** Modelled from the spec: [getHost(address) → host-or-absent]. *)
Definition ring_getHost (addr : string) : M (option loc) :=
  fun s => (ring s !! addr, withTrace (trace s ++ [RingGetHost addr]) s).

(** [existing.update(hostInfo)], in place. *)
Definition host_update (existing from : loc) : M unit :=
  fun s =>
    let s := withTrace (trace s ++ [HostUpdate existing from]) s in
    match hosts s !! from with
    | Some new => (tt, withHosts (alter (fun h => update h new) existing (hosts s)) s)
    | None => (tt, s)
    end.

(** [host.setState(st)], in place. *)
Definition host_setState (h : loc) (st : nodeState) : M unit :=
  fun s =>
    (tt, withHosts (alter (setState st) h (hosts s))
           (withTrace (trace s ++ [HostSetState h st]) s)).

(** The pool and the host source are only told; what they do with it is
    theirs. *)
Definition pool_addHost (h : loc) : M unit := emit (PoolAddHost h).
Definition pool_removeHost (addr : string) : M unit := emit (PoolRemoveHost addr).
Definition pool_hostUp (h : loc) : M unit := emit (PoolHostUp h).
Definition pool_hostDown (addr : string) : M unit := emit (PoolHostDown addr).
Definition hostSource_refreshRing : M unit := emit RefreshRing.

(** [s.nodeEvents.debounce(frame)]. *)
Definition nodeEvents_debounce (fr : frame) : M unit :=
  fun s => (tt, withNodeEvents (debounce fr (nodeEvents s)) s).

(** *** Lifecycle handlers *)

Definition handleNewNode (host : IP) (port : Z) : M unit :=
  ctl <- getControl ;;
  match ctl with
  | None => ret tt
  | Some ctl =>
      r <- control_fetchHostInfo ctl host port ;;
      match r with
      | inr err => logf (LogFetchFailed host err)
      | inl hostInfo =>
          r <- ring_addHostIfMissing hostInfo ;;
          let '(existing, ok) := r in
          hostInfo <- (if negb ok then
                         logf (LogAlreadyHave hostInfo existing) ;;;
                         host_update existing hostInfo ;;;
                         ret existing
                       else ret hostInfo) ;;
          pool_addHost hostInfo ;;;
          hostSource_refreshRing
      end
  end.

Definition handleRemovedNode (ip : IP) (port : Z) : M unit :=
  let addr := IPString ip in
  pool_removeHost addr ;;;
  ring_removeHost addr ;;;
  hostSource_refreshRing.

Definition handleNodeUp (ip : IP) (port : Z) : M unit :=
  let addr := IPString ip in
  host <- ring_getHost addr ;;
  match host with
  | Some host =>
      host_setState host NodeUp ;;;
      pool_hostUp host
  | None => handleNewNode ip port
  end.

Definition handleNodeDown (ip : IP) (port : Z) : M unit :=
  let addr := IPString ip in
  host <- ring_getHost addr ;;
  (match host with
   | Some host => host_setState host NodeDown
   | None => ret tt
   end) ;;;
  pool_hostDown addr.

(** *** Node event aggregation *)

(** One iteration of the first loop of [handleNodeEvent].  Both frame cases
    do the same: look the host's entry up, create it from this frame when
    it is missing, then overwrite its [change]. *)
Definition noteChange (f_change : string) (f_host : IP) (f_port : Z)
    (events : gmap string nodeEvent) : gmap string nodeEvent :=
  let key := IPString f_host in
  let '(event, events) :=
    match events !! key with
    | Some event => (event, events)
    | None =>
        let event := {| change := f_change; host := f_host; port := f_port |} in
        (event, <[key := event]> events)
    end in
  (* event.change = f.change, through the pointer held by the map *)
  <[key := setChange f_change event]> events.

Definition aggregateFrame (events : gmap string nodeEvent) (fr : frame)
    : gmap string nodeEvent :=
  match fr with
  | topologyChangeEventFrame c h p => noteChange c h p events
  | statusChangeEventFrame c h p => noteChange c h p events
  | _ => events
  end.

Definition aggregate (frames : list frame) : gmap string nodeEvent :=
  foldl aggregateFrame ∅ frames.

(** The [switch f.change] of the second loop: which handler is called. *)
Definition lifecycle (f : nodeEvent) : option lifecycleCall :=
  if String.eqb (change f) "NEW_NODE" then Some (CallNewNode (host f) (port f))
  else if String.eqb (change f) "REMOVED_NODE" then Some (CallRemovedNode (host f) (port f))
  else if String.eqb (change f) "MOVED_NODE" then None
  else if String.eqb (change f) "UP" then Some (CallNodeUp (host f) (port f))
  else if String.eqb (change f) "DOWN" then Some (CallNodeDown (host f) (port f))
  else None.

Definition perform (c : lifecycleCall) : M unit :=
  match c with
  | CallNewNode h p => handleNewNode h p
  | CallRemovedNode ip p => handleRemovedNode ip p
  | CallNodeUp ip p => handleNodeUp ip p
  | CallNodeDown ip p => handleNodeDown ip p
  end.

(** The body of the second loop, for one entry of the map. *)
Definition dispatch (entry : string * nodeEvent) : M unit :=
  logf (LogHandlingDebounced (fst entry) (change (snd entry))) ;;;
  match lifecycle (snd entry) with
  | Some c => perform c
  | None => ret tt
  end.

Fixpoint dispatchAll (entries : list (string * nodeEvent)) : M unit :=
  match entries with
  | [] => ret tt
  | entry :: rest => dispatch entry ;;; dispatchAll rest
  end.

Definition handleNodeEvent (frames : list frame) : M unit :=
  dispatchAll (rangeOrder (aggregate frames)).

(** The handler calls of one pass, in the order they are made. *)
Definition handlerCalls (frames : list frame) : list lifecycleCall :=
  omap (fun entry => lifecycle (snd entry)) (rangeOrder (aggregate frames)).

(** *** Dispatch entry point *)

Definition handleEvent (fr : framer) : M unit :=
  (match parseFrame fr with
   | ParseFailed err => logf (LogParseError err)
   | Parsed frame =>
       logf (LogFrame frame) ;;;
       match frame with
       | schemaChangeKeyspace _ => ret tt
       | schemaChangeFunction _ => ret tt
       | schemaChangeTable _ => ret tt
       | topologyChangeEventFrame _ _ _ | statusChangeEventFrame _ _ _ =>
           nodeEvents_debounce frame
       | _ => logf (LogInvalidFrame frame)
       end
   end) ;;;
  emit (FramerPoolPut fr).

(** *** The notifications of a batch, per address *)

(** A topology or status notification: change kind, host, port. *)
Definition notification (fr : frame) : option nodeEvent :=
  match fr with
  | topologyChangeEventFrame c h p => Some {| change := c; host := h; port := p |}
  | statusChangeEventFrame c h p => Some {| change := c; host := h; port := p |}
  | _ => None
  end.

(** The notifications for one address, in batch order. *)
Definition notificationsFor (addr : string) (frames : list frame) : list nodeEvent :=
  filter (fun n => IPString (host n) = addr) (omap notification frames).

(** The resolved events and the handler calls that belong to one address. *)
Definition resolvedFor (addr : string) (entries : list (string * nodeEvent))
    : list (string * nodeEvent) :=
  filter (fun entry => fst entry = addr) entries.

Definition callsFor (addr : string) (calls : list lifecycleCall) : list lifecycleCall :=
  filter (fun c => IPString (callIP c) = addr) calls.

(** The mapping of change kinds to handlers as the specification lists it. *)
Definition specHandler (kind : string) (ip : IP) (p : Z) : list lifecycleCall :=
  if decide (kind = "NEW_NODE") then [CallNewNode ip p]
  else if decide (kind = "REMOVED_NODE") then [CallRemovedNode ip p]
  else if decide (kind = "MOVED_NODE") then []
  else if decide (kind = "UP") then [CallNodeUp ip p]
  else if decide (kind = "DOWN") then [CallNodeDown ip p]
  else [].

(** Every host the ring points to exists. *)
Definition ringValid (s : Session) : Prop :=
  ∀ addr l, ring s !! addr = Some l → l < length (hosts s).

(** *** Runs of several calls *)

(** [handleEvent] called for one framer after the other. *)
Fixpoint handleEvents (frs : list framer) : M unit :=
  match frs with
  | [] => ret tt
  | fr :: rest => handleEvent fr ;;; handleEvents rest
  end.

(** The frame of a framer when it parses to a topology or status change. *)
Definition nodeFrame (fr : framer) : option frame :=
  match parseFrame fr with
  | Parsed (topologyChangeEventFrame c h p) => Some (topologyChangeEventFrame c h p)
  | Parsed (statusChangeEventFrame c h p) => Some (statusChangeEventFrame c h p)
  | _ => None
  end.

(** The addresses that have a notification in a batch, in batch order. *)
Definition addresses (frames : list frame) : list string :=
  (fun n => IPString (host n)) <$> omap notification frames.

(** The line [handleNodeEvent] logs for one entry of its map. *)
Definition dispatchLine (entry : string * nodeEvent) : call :=
  Logged (LogHandlingDebounced (fst entry) (change (snd entry))).

(** The change kinds the second loop of [handleNodeEvent] has a handler for. *)
Definition handledKinds : list string := ["NEW_NODE"; "REMOVED_NODE"; "UP"; "DOWN"].

(** * Properties *)

(** ** The debouncer *)

Lemma debounce_events fr e :
  events (debounce fr e) =
    if Nat.ltb (length (events e)) eventBufferSize then events e ++ [fr] else events e.
Proof. unfold debounce; cbn [events]. destruct (Nat.ltb _ _); reflexivity. Qed.

Lemma debounce_spawned fr e : spawned (debounce fr e) = spawned e.
Proof. unfold debounce; cbn [events]. destruct (Nat.ltb _ _); reflexivity. Qed.

Lemma debounceAll_spawned frs : ∀ e, spawned (debounceAll frs e) = spawned e.
Proof.
  induction frs as [|fr frs IH]; intros e; [reflexivity|].
  unfold debounceAll in *; cbn [foldl]. rewrite IH. apply debounce_spawned.
Qed.

Lemma debounceAll_events frs : ∀ e,
  length (events e) ≤ eventBufferSize →
  events (debounceAll frs e) = take eventBufferSize (events e ++ frs).
Proof.
  induction frs as [|fr frs IH]; intros e Hle.
  - cbn. rewrite app_nil_r, take_ge; [reflexivity|exact Hle].
  - unfold debounceAll in *; cbn [foldl]. rewrite IH; rewrite debounce_events.
    + destruct (Nat.ltb_spec (length (events e)) eventBufferSize) as [Hlt|Hge].
      * rewrite <- app_assoc. reflexivity.
      * assert (length (events e) = eventBufferSize) as Hfull by lia.
        rewrite <- Hfull. rewrite !take_app_length. reflexivity.
    + destruct (Nat.ltb_spec (length (events e)) eventBufferSize) as [Hlt|Hge].
      * rewrite length_app; cbn. lia.
      * exact Hle.
Qed.

Lemma take_min_length {A} (l : list A) n : take (length l `min` n) l = take n l.
Proof.
  destruct (Nat.le_gt_cases (length l) n) as [H|H].
  - rewrite Nat.min_l by exact H. rewrite firstn_all, take_ge; [reflexivity|exact H].
  - rewrite Nat.min_r by lia. reflexivity.
Qed.

Lemma flush_events_nil e : events (flush e) = [].
Proof.
  unfold flush; cbn [events dlog].
  destruct (events e) as [|fr frs] eqn:Hev; cbn; [exact Hev|reflexivity].
Qed.

Lemma flush_spawned e :
  spawned (flush e) = if decide (events e = []) then spawned e else spawned e ++ [events e].
Proof.
  unfold flush; cbn [events dlog].
  destruct (events e) as [|fr frs] eqn:Hev; cbn; rewrite ?Hev; reflexivity.
Qed.

(** Whenever the timer case of the flusher has run, the buffer is empty. *)
Lemma flusherTimerFired_events_nil e : events (flusherTimerFired e) = [].
Proof. apply flush_events_nil. Qed.

(** C2. Starting from an empty pending buffer (as a flush or the constructor
    leaves it), after [N >= 1] calls of [debounce] the buffer holds the first
    [min N 1000] events in submission order and the callback has not been
    called; the next flush hands exactly those events to the callback, in one
    invocation and in submission order, and empties the buffer. *)
Theorem debounce_burst_keeps_first_capacity_events (e : eventDeouncer) (frs : list frame) :
  events e = [] →
  frs ≠ [] →
  let batch := take (length frs `min` eventBufferSize) frs in
  let e1 := debounceAll frs e in
  eventBufferSize = 1000
  ∧ events e1 = batch
  ∧ length batch = length frs `min` eventBufferSize
  ∧ spawned e1 = spawned e
  ∧ spawned (flush e1) = spawned e ++ [batch]
  ∧ events (flush e1) = [].
Proof.
  intros Hempty Hne batch e1.
  assert (events e1 = batch) as Hev.
  { unfold e1, batch. rewrite debounceAll_events by (rewrite Hempty; cbn; lia).
    rewrite Hempty, take_min_length. reflexivity. }
  assert (length batch = length frs `min` eventBufferSize) as Hlen.
  { unfold batch. rewrite length_take. lia. }
  assert (spawned e1 = spawned e) as Hsp by apply debounceAll_spawned.
  repeat split; try assumption.
  - rewrite flush_spawned, Hev, Hsp. case_decide as Hnil; [|reflexivity].
    exfalso. rewrite Hnil in Hlen. destruct frs; [congruence|].
    cbn [length] in Hlen. unfold eventBufferSize in Hlen. lia.
  - apply flush_events_nil.
Qed.

(** C8. Flushing an empty pending sequence calls no callback and leaves the
    sequence as it is; whenever a flush does call the callback, the pending
    sequence was not empty and the callback gets exactly that sequence. *)
Theorem flush_empty_calls_nothing (e : eventDeouncer) :
  (events e = [] → spawned (flush e) = spawned e ∧ events (flush e) = events e)
  ∧ (spawned (flush e) ≠ spawned e →
       events e ≠ [] ∧ spawned (flush e) = spawned e ++ [events e]).
Proof.
  split.
  - intros Hnil. rewrite flush_spawned, flush_events_nil, Hnil.
    split; reflexivity.
  - intros Hcalled. rewrite flush_spawned in *.
    case_decide; [congruence|]. split; [assumption|reflexivity].
Qed.

(** ** The lifecycle handlers and the dispatch entry point *)

Ltac run_handler :=
  unfold handleNewNode, handleRemovedNode, handleNodeUp, handleNodeDown,
    handleEvent,
    bind, ret, getControl, control_fetchHostInfo, ring_addHostIfMissing,
    ring_removeHost, ring_getHost, host_update, host_setState,
    pool_addHost, pool_removeHost, pool_hostUp, pool_hostDown,
    hostSource_refreshRing, nodeEvents_debounce, logf, emit;
  cbn [control hosts ring nodeEvents trace withHosts withRing withTrace
       withNodeEvents fst snd negb].

(** What [handleNewNode] does once the fetch has succeeded: the fetched
    host is a new object [l]; the ring takes it when the address is free,
    otherwise the host already there is updated from it; the pool is given
    the host the ring holds, and the ring refresh is asked for last. *)
Lemma handleNewNode_fetched s ctl host port h :
  control s = Some ctl →
  fetchHostInfo ctl host port = Fetched h →
  let l := length (hosts s) in
  let addr := IPString (peer h) in
  handleNewNode host port s =
    match ring s !! addr with
    | None =>
        (tt, {| control := control s;
                hosts := hosts s ++ [h];
                ring := <[addr := l]> (ring s);
                nodeEvents := nodeEvents s;
                trace := trace s ++ [FetchHostInfo host port; RingAddHostIfMissing l;
                                     PoolAddHost l; RefreshRing] |})
    | Some existing =>
        (tt, {| control := control s;
                hosts := alter (fun x => update x h) existing (hosts s ++ [h]);
                ring := ring s;
                nodeEvents := nodeEvents s;
                trace := trace s ++ [FetchHostInfo host port; RingAddHostIfMissing l;
                                     Logged (LogAlreadyHave l existing);
                                     HostUpdate existing l;
                                     PoolAddHost existing; RefreshRing] |})
    end.
Proof.
  intros Hctl Hfetch l addr. destruct s as [c hs r ne t]; cbn in *; subst c.
  run_handler. rewrite Hfetch. run_handler.
  assert ((hs ++ [h]) !! length hs = Some h) as Hnew.
  { rewrite lookup_app_r by lia. rewrite Nat.sub_diag. reflexivity. }
  rewrite Hnew. fold addr. destruct (r !! addr) as [existing|]; run_handler.
  - rewrite Hnew. run_handler. rewrite <- !app_assoc. reflexivity.
  - rewrite <- !app_assoc. reflexivity.
Qed.


(** C3. [handleNodeUp] looks the address up in the ring.  A host that is
    found is set to Up and reported to the pool with [hostUp], and nothing
    else is called; for an absent host the handler continues as
    [handleNewNode] with the same arguments, which with a control connection
    and a successful fetch calls [fetchHostInfo], [ring.addHostIfMissing]
    and [pool.addHost]. *)
Theorem handleNodeUp_known_or_new (s : Session) (ip : IP) (port : Z) :
  let addr := IPString ip in
  let looked := withTrace (trace s ++ [RingGetHost addr]) s in
  (∀ l, ring s !! addr = Some l →
     handleNodeUp ip port s =
       (tt, withHosts (alter (setState NodeUp) l (hosts s))
              (withTrace (trace s ++ [RingGetHost addr; HostSetState l NodeUp;
                                      PoolHostUp l]) s))
     ∧ (∀ h, hosts s !! l = Some h →
          hosts (snd (handleNodeUp ip port s)) !! l = Some (setState NodeUp h)))
  ∧ (ring s !! addr = None →
     handleNodeUp ip port s = handleNewNode ip port looked
     ∧ (∀ ctl h, control s = Some ctl → fetchHostInfo ctl ip port = Fetched h →
          ∃ registered middle,
            trace (snd (handleNodeUp ip port s)) =
              trace s ++ [RingGetHost addr; FetchHostInfo ip port;
                          RingAddHostIfMissing (length (hosts s))]
                      ++ middle ++ [PoolAddHost registered; RefreshRing])).
Proof.
  intros addr looked. split.
  - intros l Hl. assert (handleNodeUp ip port s =
       (tt, withHosts (alter (setState NodeUp) l (hosts s))
              (withTrace (trace s ++ [RingGetHost addr; HostSetState l NodeUp;
                                      PoolHostUp l]) s))) as Hrun.
    { run_handler. fold addr. rewrite Hl. run_handler.
      rewrite <- !app_assoc. reflexivity. }
    split; [exact Hrun|]. intros h Hh. rewrite Hrun. cbn [snd hosts withHosts].
    rewrite list_lookup_alter_eq, Hh. reflexivity.
  - intros Habsent. assert (handleNodeUp ip port s = handleNewNode ip port looked) as Hrun.
    { unfold handleNodeUp, bind at 1, ring_getHost. fold addr. rewrite Habsent.
      reflexivity. }
    split; [exact Hrun|]. intros ctl h Hctl Hfetch. rewrite Hrun.
    rewrite (handleNewNode_fetched looked ctl ip port h Hctl Hfetch).
    cbn [ring looked withTrace hosts trace].
    destruct (ring s !! IPString (peer h)) as [existing|]; cbn [snd trace].
    + exists existing, [Logged (LogAlreadyHave (length (hosts s)) existing);
                        HostUpdate existing (length (hosts s))].
      rewrite <- !app_assoc. reflexivity.
    + exists (length (hosts s)), []. rewrite <- !app_assoc. reflexivity.
Qed.

(** C4. Without a control connection [handleNewNode] leaves the session
    exactly as it was.  When [fetchHostInfo] fails, the handler fetches once,
    logs the failure and returns: the ring, the host objects and the calls
    made to the pool are what they were. *)
Theorem handleNewNode_nothing_on_failure (s : Session) (host : IP) (port : Z) :
  (control s = None → handleNewNode host port s = (tt, s))
  ∧ (∀ ctl err, control s = Some ctl → fetchHostInfo ctl host port = FetchFailed err →
       let s' := snd (handleNewNode host port s) in
       ring s' = ring s
       ∧ hosts s' = hosts s
       ∧ poolCalls (trace s') = poolCalls (trace s)
       ∧ trace s' = trace s ++ [FetchHostInfo host port;
                                Logged (LogFetchFailed host err)]).
Proof.
  split.
  - intros Hnil. run_handler. rewrite Hnil. reflexivity.
  - intros ctl err Hctl Hfetch. run_handler. rewrite Hctl, Hfetch. run_handler.
    repeat split.
    + unfold poolCalls. rewrite !List.filter_app. cbn. rewrite !app_nil_r. reflexivity.
    + rewrite <- app_assoc. reflexivity.
Qed.

(** C5. [handleNodeDown] tells the pool that the address is down whether
    or not the ring knows the host, as its last call; a host that is found is
    set to Down first, and for an absent host nothing but the lookup and the
    notification happens. *)
Theorem handleNodeDown_always_tells_pool (s : Session) (ip : IP) (port : Z) :
  let addr := IPString ip in
  (∀ l, ring s !! addr = Some l →
     handleNodeDown ip port s =
       (tt, withHosts (alter (setState NodeDown) l (hosts s))
              (withTrace (trace s ++ [RingGetHost addr; HostSetState l NodeDown;
                                      PoolHostDown addr]) s))
     ∧ (∀ h, hosts s !! l = Some h →
          hosts (snd (handleNodeDown ip port s)) !! l = Some (setState NodeDown h)))
  ∧ (ring s !! addr = None →
     handleNodeDown ip port s =
       (tt, withTrace (trace s ++ [RingGetHost addr; PoolHostDown addr]) s))
  ∧ last (trace (snd (handleNodeDown ip port s))) = Some (PoolHostDown addr).
Proof.
  intros addr.
  assert (∀ l, ring s !! addr = Some l →
     handleNodeDown ip port s =
       (tt, withHosts (alter (setState NodeDown) l (hosts s))
              (withTrace (trace s ++ [RingGetHost addr; HostSetState l NodeDown;
                                      PoolHostDown addr]) s))) as Hfound.
  { intros l Hl. run_handler. fold addr. rewrite Hl. run_handler.
    rewrite <- !app_assoc. reflexivity. }
  assert (ring s !! addr = None →
     handleNodeDown ip port s =
       (tt, withTrace (trace s ++ [RingGetHost addr; PoolHostDown addr]) s)) as Habsent.
  { intros Hl. run_handler. fold addr. rewrite Hl. run_handler.
    rewrite <- !app_assoc. reflexivity. }
  split; [|split].
  - intros l Hl. split; [exact (Hfound l Hl)|]. intros h Hh.
    rewrite (Hfound l Hl). cbn [snd hosts withHosts].
    rewrite list_lookup_alter_eq, Hh. reflexivity.
  - exact Habsent.
  - destruct (ring s !! addr) as [l|] eqn:Hl.
    + rewrite (Hfound l eq_refl). cbn [snd trace withHosts withTrace].
      change [RingGetHost addr; HostSetState l NodeDown; PoolHostDown addr]
        with ([RingGetHost addr; HostSetState l NodeDown] ++ [PoolHostDown addr]).
      rewrite app_assoc. apply last_snoc.
    + rewrite (Habsent eq_refl). cbn [snd trace withTrace].
      change [RingGetHost addr; PoolHostDown addr]
        with ([RingGetHost addr] ++ [PoolHostDown addr]).
      rewrite app_assoc. apply last_snoc.
Qed.

(** C6. After a successful fetch [handleNewNode] puts the fetched host into
    the ring when its address is not there yet; when the ring already has a
    host for that address, that host is updated in place from the fetched
    one, stays in the ring, and is the one used from then on.  In both
    cases the resulting host is then registered with the pool and last the
    ring refresh is requested. *)
Theorem handleNewNode_adds_or_updates (s : Session) (ctl : controlConn)
    (host : IP) (port : Z) (h : HostInfo) :
  control s = Some ctl →
  fetchHostInfo ctl host port = Fetched h →
  let l := length (hosts s) in
  let addr := IPString (peer h) in
  let s' := snd (handleNewNode host port s) in
  (ring s !! addr = None →
     ring s' = <[addr := l]> (ring s)
     ∧ hosts s' = hosts s ++ [h]
     ∧ trace s' = trace s ++ [FetchHostInfo host port; RingAddHostIfMissing l;
                              PoolAddHost l; RefreshRing])
  ∧ (∀ existing, ring s !! addr = Some existing →
     ring s' = ring s
     ∧ hosts s' = alter (fun x => update x h) existing (hosts s ++ [h])
     ∧ (∀ old, hosts s !! existing = Some old →
          hosts s' !! existing = Some (update old h))
     ∧ trace s' = trace s ++ [FetchHostInfo host port; RingAddHostIfMissing l;
                              Logged (LogAlreadyHave l existing);
                              HostUpdate existing l;
                              PoolAddHost existing; RefreshRing]).
Proof.
  intros Hctl Hfetch l addr s'. unfold s'.
  rewrite (handleNewNode_fetched s ctl host port h Hctl Hfetch). fold addr l.
  split.
  - intros Hfree. rewrite Hfree. cbn. repeat split.
  - intros existing Hthere. rewrite Hthere. cbn. repeat split.
    intros old Hold. rewrite list_lookup_alter_eq.
    rewrite lookup_app_l by (apply lookup_lt_Some in Hold; exact Hold).
    rewrite Hold. reflexivity.
Qed.

(** C7. [handleEvent] gives topology and status frames to the debouncer,
    does nothing with the three schema-change frames, logs any other frame
    as invalid, and logs a frame that does not parse.  In every case the
    ring, the host objects and the control connection stay as they are, the
    debouncer's callback is not called, no collaborator other than the log
    and the framer pool is called, and the handler returns normally. *)
Theorem handleEvent_routes (s : Session) (fr : framer) :
  let s' := snd (handleEvent fr s) in
  fst (handleEvent fr s) = tt
  ∧ control s' = control s ∧ ring s' = ring s ∧ hosts s' = hosts s
  ∧ spawned (nodeEvents s') = spawned (nodeEvents s)
  ∧ match parseFrame fr with
    | ParseFailed err =>
        nodeEvents s' = nodeEvents s
        ∧ trace s' = trace s ++ [Logged (LogParseError err); FramerPoolPut fr]
    | Parsed (topologyChangeEventFrame c h p as f)
    | Parsed (statusChangeEventFrame c h p as f) =>
        nodeEvents s' = debounce f (nodeEvents s)
        ∧ trace s' = trace s ++ [Logged (LogFrame f); FramerPoolPut fr]
    | Parsed (schemaChangeKeyspace _ as f)
    | Parsed (schemaChangeFunction _ as f)
    | Parsed (schemaChangeTable _ as f) =>
        nodeEvents s' = nodeEvents s
        ∧ trace s' = trace s ++ [Logged (LogFrame f); FramerPoolPut fr]
    | Parsed (otherFrame _ as f) =>
        nodeEvents s' = nodeEvents s
        ∧ trace s' = trace s ++ [Logged (LogFrame f); Logged (LogInvalidFrame f);
                                 FramerPoolPut fr]
    end.
Proof.
  intros s'. unfold s'. run_handler.
  destruct (parseFrame fr) as [f|err]; [destruct f|]; run_handler;
    rewrite <- ?app_assoc, ?debounce_spawned; repeat split.
Qed.

(** C10. [handleRemovedNode] and [handleNodeDown] do not depend on the port
    they are given: two runs from the same session with the same IP and any
    two ports end in the same session.  More, the IP matters only through
    its address string. *)
Theorem removed_and_down_ignore_port (s : Session) (ip : IP) (p1 p2 : Z) :
  handleRemovedNode ip p1 s = handleRemovedNode ip p2 s
  ∧ handleNodeDown ip p1 s = handleNodeDown ip p2 s
  ∧ (∀ ip', IPString ip' = IPString ip →
       handleRemovedNode ip' p2 s = handleRemovedNode ip p1 s
       ∧ handleNodeDown ip' p2 s = handleNodeDown ip p1 s).
Proof.
  split; [reflexivity|]. split; [reflexivity|].
  intros ip' Hsame. unfold handleRemovedNode, handleNodeDown.
  rewrite Hsame. split; reflexivity.
Qed.

(** The handlers keep the ring pointing at hosts that exist. *)
Lemma handleNewNode_ringValid host port s :
  ringValid s → ringValid (snd (handleNewNode host port s)).
Proof.
  intros Hvalid. destruct (control s) as [ctl|] eqn:Hctl.
  - destruct (fetchHostInfo ctl host port) as [h|err] eqn:Hfetch.
    + rewrite (handleNewNode_fetched s ctl host port h Hctl Hfetch).
      destruct (ring s !! IPString (peer h)) as [existing|] eqn:Hring;
        intros addr l; cbn [snd ring hosts].
      * intros Hl. apply Hvalid in Hl. rewrite length_alter, length_app. lia.
      * rewrite length_app. cbn [length]. intros Hl.
        apply lookup_insert_Some in Hl as [[_ <-]|[_ Hl]]; [lia|].
        apply Hvalid in Hl. lia.
    + run_handler. rewrite Hctl, Hfetch. exact Hvalid.
  - run_handler. rewrite Hctl. exact Hvalid.
Qed.

Lemma perform_ringValid c s : ringValid s → ringValid (snd (perform c s)).
Proof.
  intros Hvalid. destruct c as [h p|ip p|ip p|ip p]; cbn [perform].
  - apply handleNewNode_ringValid. exact Hvalid.
  - run_handler. intros addr l; cbn [ring hosts withTrace withRing withHosts]. intros Hl.
    apply lookup_delete_Some in Hl as [_ Hl]. exact (Hvalid addr l Hl).
  - unfold handleNodeUp, bind at 1, ring_getHost.
    destruct (ring s !! IPString ip) as [l0|].
    + run_handler. intros addr l; cbn [ring hosts withTrace withRing withHosts]. rewrite length_alter. apply Hvalid.
    + apply handleNewNode_ringValid. exact Hvalid.
  - run_handler. destruct (ring s !! IPString ip) as [l0|]; run_handler;
      intros addr l; cbn [ring hosts withTrace withRing withHosts]; rewrite ?length_alter; apply Hvalid.
Qed.

(** Only the dispatch loop writes dispatch lines: the handlers do not. *)
Lemma dispatchLog_app t1 t2 : dispatchLog (t1 ++ t2) = dispatchLog t1 ++ dispatchLog t2.
Proof. apply List.filter_app. Qed.

Lemma handleNewNode_dispatchLog host port s :
  dispatchLog (trace (snd (handleNewNode host port s))) = dispatchLog (trace s).
Proof.
  destruct (control s) as [ctl|] eqn:Hctl.
  - destruct (fetchHostInfo ctl host port) as [h|err] eqn:Hfetch.
    + rewrite (handleNewNode_fetched s ctl host port h Hctl Hfetch).
      destruct (ring s !! IPString (peer h)); cbn [snd trace];
        rewrite dispatchLog_app; cbn; apply app_nil_r.
    + run_handler. rewrite Hctl, Hfetch. run_handler.
      rewrite !dispatchLog_app. cbn. rewrite !app_nil_r. reflexivity.
  - run_handler. rewrite Hctl. reflexivity.
Qed.

Lemma perform_dispatchLog c s :
  dispatchLog (trace (snd (perform c s))) = dispatchLog (trace s).
Proof.
  destruct c as [h p|ip p|ip p|ip p]; cbn [perform].
  - apply handleNewNode_dispatchLog.
  - run_handler. rewrite !dispatchLog_app. cbn. rewrite !app_nil_r. reflexivity.
  - unfold handleNodeUp, bind at 1, ring_getHost.
    destruct (ring s !! IPString ip) as [l0|].
    + run_handler. rewrite !dispatchLog_app. cbn. rewrite !app_nil_r. reflexivity.
    + rewrite handleNewNode_dispatchLog. cbn [trace withTrace].
      rewrite dispatchLog_app. cbn. apply app_nil_r.
  - run_handler. destruct (ring s !! IPString ip) as [l0|]; run_handler;
      rewrite !dispatchLog_app; cbn; rewrite !app_nil_r; reflexivity.
Qed.

Lemma dispatchAll_dispatchLog entries : ∀ s,
  dispatchLog (trace (snd (dispatchAll entries s))) =
    dispatchLog (trace s)
      ++ List.map (fun entry => Logged (LogHandlingDebounced (fst entry) (change (snd entry))))
           entries.
Proof.
  induction entries as [|entry entries IH]; intros s.
  - cbn. rewrite app_nil_r. reflexivity.
  - cbn [dispatchAll List.map]. unfold bind at 1, dispatch, bind at 1, logf, emit.
    destruct (lifecycle (snd entry)) as [c|].
    + destruct (perform c _) as [[] s1] eqn:Hrun.
      rewrite IH. pose proof (perform_dispatchLog c (withTrace (trace s ++ [Logged (LogHandlingDebounced entry.1 (change entry.2))]) s)) as Hlog.
      rewrite Hrun in Hlog. cbn [snd] in Hlog. rewrite Hlog. cbn [trace withTrace].
      rewrite dispatchLog_app. cbn. rewrite <- app_assoc. reflexivity.
    + unfold ret. rewrite IH. cbn [trace withTrace].
      rewrite dispatchLog_app. cbn. rewrite <- app_assoc. reflexivity.
Qed.

(** ** Node event aggregation *)

Lemma resolvedFor_none addr (l : list (string * nodeEvent)) :
  addr ∉ l.*1 → resolvedFor addr l = [].
Proof.
  unfold resolvedFor. induction l as [|[k v] l IH]; intros Hno; [reflexivity|].
  cbn in Hno. apply not_elem_of_cons in Hno as [Hk Hl].
  rewrite filter_cons_False by (cbn; congruence). auto.
Qed.

Lemma resolvedFor_one addr ev (l : list (string * nodeEvent)) :
  NoDup l.*1 → (addr, ev) ∈ l → resolvedFor addr l = [(addr, ev)].
Proof.
  unfold resolvedFor. induction l as [|[k v] l IH]; intros Hnd Hin.
  - inversion Hin.
  - cbn in Hnd. apply NoDup_cons in Hnd as [Hk Hnd].
    apply elem_of_cons in Hin as [Heq|Hin].
    + inversion Heq; subst k v. rewrite filter_cons_True by reflexivity.
      f_equal. apply resolvedFor_none. exact Hk.
    + assert (k ≠ addr) as Hne.
      { intros ->. apply Hk. apply list_elem_of_fmap. exists (addr, ev). auto. }
      rewrite filter_cons_False by (cbn; congruence). auto.
Qed.

Lemma resolvedFor_range (m : gmap string nodeEvent) order addr :
  order ≡ₚ map_to_list m →
  resolvedFor addr order =
    match m !! addr with Some ev => [(addr, ev)] | None => [] end.
Proof.
  intros Hperm.
  assert (NoDup order.*1) as Hnd.
  { rewrite Hperm. apply NoDup_fst_map_to_list. }
  destruct (m !! addr) as [ev|] eqn:Hm.
  - apply resolvedFor_one; [exact Hnd|]. rewrite Hperm.
    apply elem_of_map_to_list. exact Hm.
  - apply resolvedFor_none. intros Hin. apply list_elem_of_fmap in Hin as [[k v] [Hk Hin]].
    cbn in Hk; subst k. rewrite Hperm in Hin. apply elem_of_map_to_list in Hin. congruence.
Qed.

Lemma setChange_same ev : setChange (change ev) ev = ev.
Proof. destruct ev; reflexivity. Qed.

Lemma noteChange_lookup c h p (m : gmap string nodeEvent) addr :
  noteChange c h p m !! addr =
    if decide (IPString h = addr) then
      Some (setChange c (default {| change := c; host := h; port := p |} (m !! addr)))
    else m !! addr.
Proof.
  unfold noteChange. case_decide as Hk.
  - subst addr. destruct (m !! IPString h) as [ev|]; cbn; apply lookup_insert_eq.
  - destruct (m !! IPString h) as [ev|]; rewrite !lookup_insert_ne by exact Hk; reflexivity.
Qed.

Lemma omap_step {A B} (f : A → option B) x l :
  omap f (x :: l) = match f x with Some y => y :: omap f l | None => omap f l end.
Proof. reflexivity. Qed.

Lemma notificationsFor_cons addr fr frames :
  notificationsFor addr (fr :: frames) =
    match notification fr with
    | Some n => if decide (IPString (host n) = addr)
                then n :: notificationsFor addr frames
                else notificationsFor addr frames
    | None => notificationsFor addr frames
    end.
Proof.
  unfold notificationsFor.
  rewrite omap_step.
  destruct (notification fr) as [n|]; [|reflexivity].
  case_decide.
  - rewrite filter_cons_True by assumption. reflexivity.
  - rewrite filter_cons_False by assumption. reflexivity.
Qed.

Lemma aggregateFrame_lookup (m : gmap string nodeEvent) fr addr :
  aggregateFrame m fr !! addr =
    match notification fr with
    | Some n => if decide (IPString (host n) = addr)
                then Some (setChange (change n) (default n (m !! addr)))
                else m !! addr
    | None => m !! addr
    end.
Proof.
  destruct fr; cbn [aggregateFrame notification]; try reflexivity;
    apply noteChange_lookup.
Qed.

Lemma foldl_aggregate_lookup frames : ∀ (m : gmap string nodeEvent) addr,
  foldl (aggregateFrame) m frames !! addr =
    let ns := notificationsFor addr frames in
    match m !! addr with
    | Some ev => Some (setChange (default (change ev) (change <$> last ns)) ev)
    | None =>
        match head ns, last ns with
        | Some first, Some final => Some (setChange (change final) first)
        | _, _ => None
        end
    end.
Proof.
  induction frames as [|fr frames IH]; intros m addr; cbn zeta.
  - cbn. destruct (m !! addr) as [ev|]; [|reflexivity].
    rewrite setChange_same. reflexivity.
  - cbn [foldl]. rewrite IH. cbn zeta.
    rewrite aggregateFrame_lookup, notificationsFor_cons.
    destruct (notification fr) as [n|]; [|reflexivity].
    case_decide as Hk; [|reflexivity].
    rewrite last_cons. cbn [head].
    destruct (m !! addr) as [ev|]; cbn [default];
      destruct (last (notificationsFor addr frames)) as [final|];
      reflexivity.
Qed.

Lemma aggregate_lookup frames addr :
  aggregate frames !! addr =
    match head (notificationsFor addr frames),
          last (notificationsFor addr frames) with
    | Some first, Some final => Some (setChange (change final) first)
    | _, _ => None
    end.
Proof.
  unfold aggregate. rewrite foldl_aggregate_lookup. cbn zeta.
  rewrite lookup_empty. reflexivity.
Qed.

Lemma notificationsFor_host addr frames n :
  n ∈ notificationsFor addr frames → IPString (host n) = addr.
Proof. unfold notificationsFor. intros Hin. apply list_elem_of_filter in Hin. tauto. Qed.

Lemma aggregate_key frames addr ev :
  aggregate frames !! addr = Some ev → IPString (host ev) = addr.
Proof.
  rewrite aggregate_lookup.
  destruct (head (notificationsFor addr frames)) as [first|] eqn:Hhead; [|discriminate].
  destruct (last _) as [final|]; [|discriminate].
  intros [= <-]. cbn. apply (notificationsFor_host addr frames).
  apply head_Some in Hhead as [rest ->]. left.
Qed.

Lemma lifecycle_args ev c :
  lifecycle ev = Some c → callIP c = host ev ∧ callPort c = port ev.
Proof.
  unfold lifecycle.
  destruct (String.eqb (change ev) "NEW_NODE"); [intros [= <-]; split; reflexivity|].
  destruct (String.eqb (change ev) "REMOVED_NODE"); [intros [= <-]; split; reflexivity|].
  destruct (String.eqb (change ev) "MOVED_NODE"); [discriminate|].
  destruct (String.eqb (change ev) "UP"); [intros [= <-]; split; reflexivity|].
  destruct (String.eqb (change ev) "DOWN"); [intros [= <-]; split; reflexivity|].
  discriminate.
Qed.

Lemma lifecycle_specHandler ev :
  match lifecycle ev with Some c => [c] | None => [] end =
    specHandler (change ev) (host ev) (port ev).
Proof.
  destruct ev as [c h p]. unfold lifecycle, specHandler. cbn [change host port].
  destruct (String.eqb_spec c "NEW_NODE") as [->|?]; [reflexivity|].
  destruct (String.eqb_spec c "REMOVED_NODE") as [->|?]; [reflexivity|].
  destruct (String.eqb_spec c "MOVED_NODE") as [->|?]; [reflexivity|].
  destruct (String.eqb_spec c "UP") as [->|?]; [reflexivity|].
  destruct (String.eqb_spec c "DOWN") as [->|?]; [reflexivity|].
  repeat (case_decide; [congruence|]). reflexivity.
Qed.

Lemma callsFor_entries addr (l : list (string * nodeEvent)) :
  (∀ k ev, (k, ev) ∈ l → IPString (host ev) = k) →
  callsFor addr (omap (fun entry => lifecycle (snd entry)) l) =
    omap (fun entry => lifecycle (snd entry)) (resolvedFor addr l).
Proof.
  unfold callsFor, resolvedFor. induction l as [|[k ev] l IH]; intros Hkeys; [reflexivity|].
  assert (IPString (host ev) = k) as Hk by (apply Hkeys; left).
  assert (∀ k ev, (k, ev) ∈ l → IPString (host ev) = k) as Hrest
    by (intros; apply Hkeys; right; assumption).
  specialize (IH Hrest). rewrite omap_step. cbn [snd].
  destruct (decide (k = addr)) as [Heq|Hne].
  - rewrite (filter_cons_True (fun e : string * nodeEvent => e.1 = addr)) by exact Heq.
    rewrite omap_step. cbn [snd].
    destruct (lifecycle ev) as [c|] eqn:Hc; [|exact IH].
    apply lifecycle_args in Hc as [Hip _].
    rewrite filter_cons_True by (rewrite Hip; congruence). f_equal. exact IH.
  - rewrite (filter_cons_False (fun e : string * nodeEvent => e.1 = addr)) by exact Hne.
    destruct (lifecycle ev) as [c|] eqn:Hc; [|exact IH].
    apply lifecycle_args in Hc as [Hip _].
    rewrite filter_cons_False by (rewrite Hip; congruence). exact IH.
Qed.

(** The specification's table, entry by entry. *)
Lemma specHandler_table ip p :
  specHandler "NEW_NODE" ip p = [CallNewNode ip p]
  ∧ specHandler "REMOVED_NODE" ip p = [CallRemovedNode ip p]
  ∧ specHandler "MOVED_NODE" ip p = []
  ∧ specHandler "UP" ip p = [CallNodeUp ip p]
  ∧ specHandler "DOWN" ip p = [CallNodeDown ip p].
Proof. repeat split. Qed.

(** The resolved event of an address and the handler calls made for it. *)
Lemma resolved_and_calls frames addr :
  rangeOrder (aggregate frames) ≡ₚ map_to_list (aggregate frames) →
  resolvedFor addr (rangeOrder (aggregate frames)) =
    match aggregate frames !! addr with Some ev => [(addr, ev)] | None => [] end
  ∧ callsFor addr (handlerCalls frames) =
    match aggregate frames !! addr with
    | Some ev => specHandler (change ev) (host ev) (port ev)
    | None => []
    end.
Proof.
  intros Hperm.
  pose proof (resolvedFor_range (aggregate frames) _ addr Hperm) as Hres.
  split; [exact Hres|].
  unfold handlerCalls. rewrite callsFor_entries.
  - rewrite Hres. destruct (aggregate frames !! addr) as [ev|]; [|reflexivity].
    rewrite omap_step. cbn [snd]. apply lifecycle_specHandler.
  - intros k ev Hin. rewrite Hperm in Hin. apply elem_of_map_to_list in Hin.
    apply (aggregate_key frames). exact Hin.
Qed.

(** C1. In one pass of [handleNodeEvent] an address with no topology or
    status notification gets no resolved event and no handler call; an
    address with at least one gets exactly one resolved event, whose change
    kind is that of its last notification in batch order, and the handler
    calls made for it are those of the table: one call of the new-node,
    removed-node, node-up or node-down handler for NEW_NODE, REMOVED_NODE, UP
    or DOWN, and none for MOVED_NODE.  A host notified DOWN then UP gets
    one node-up call and nothing else.  The run itself logs one dispatch line
    per resolved event, in iteration order. *)
Theorem handleNodeEvent_last_write_wins (frames : list frame) (addr : string) :
  rangeOrder (aggregate frames) ≡ₚ map_to_list (aggregate frames) →
  let ns := notificationsFor addr frames in
  let entries := rangeOrder (aggregate frames) in
  (ns = [] → resolvedFor addr entries = [] ∧ callsFor addr (handlerCalls frames) = [])
  ∧ (∀ final, last ns = Some final →
       ∃ ev, resolvedFor addr entries = [(addr, ev)]
           ∧ change ev = change final
           ∧ callsFor addr (handlerCalls frames) =
               specHandler (change final) (host ev) (port ev))
  ∧ (change <$> ns = ["DOWN"; "UP"] →
       ∃ ev, resolvedFor addr entries = [(addr, ev)]
           ∧ change ev = "UP"
           ∧ callsFor addr (handlerCalls frames) = [CallNodeUp (host ev) (port ev)])
  ∧ (∀ s, dispatchLog (trace (snd (handleNodeEvent frames s))) =
            dispatchLog (trace s)
              ++ List.map (fun entry =>
                             Logged (LogHandlingDebounced (fst entry) (change (snd entry))))
                   entries).
Proof.
  intros Hperm ns entries.
  destruct (resolved_and_calls frames addr Hperm) as [Hres Hcalls].
  fold entries in Hres. rewrite aggregate_lookup in Hres, Hcalls. fold ns in Hres, Hcalls.
  assert (∀ final, last ns = Some final →
       ∃ ev, resolvedFor addr entries = [(addr, ev)]
           ∧ change ev = change final
           ∧ callsFor addr (handlerCalls frames) =
               specHandler (change final) (host ev) (port ev)) as Hlast.
  { intros final Hfinal. rewrite Hfinal in Hres, Hcalls.
    destruct (head ns) as [first|] eqn:Hhead.
    - exists (setChange (change final) first). repeat split; assumption.
    - apply head_None in Hhead. rewrite Hhead in Hfinal. discriminate. }
  split; [|split; [|split]].
  - intros Hnil. rewrite Hnil in Hres, Hcalls. split; assumption.
  - exact Hlast.
  - intros Hkinds.
    destruct ns as [|n1 [|n2 [|n3 rest]]]; try discriminate.
    injection Hkinds as H1 H2.
    destruct (Hlast n2 eq_refl) as (ev & Hev & Hchange & Hcall).
    exists ev. rewrite Hcall, Hchange, H2. repeat split; assumption.
  - intros s. apply dispatchAll_dispatchLog.
Qed.

(** C9. In one pass of [handleNodeEvent] the resolved event of an address
    carries the host IP and the port of the first notification for that
    address in the batch, and every handler call made for the address gets
    them; a later notification for an address already in the map changes the
    entry's change kind and nothing else, whatever port it carries. *)
Theorem handleNodeEvent_keeps_first_host_and_port (frames : list frame) (addr : string) :
  rangeOrder (aggregate frames) ≡ₚ map_to_list (aggregate frames) →
  (∀ first, head (notificationsFor addr frames) = Some first →
     ∃ ev, resolvedFor addr (rangeOrder (aggregate frames)) = [(addr, ev)]
         ∧ host ev = host first ∧ port ev = port first
         ∧ ∀ c, c ∈ callsFor addr (handlerCalls frames) →
                callIP c = host first ∧ callPort c = port first)
  ∧ (∀ (events : gmap string nodeEvent) ev c h p,
       events !! IPString h = Some ev →
       aggregateFrame events (topologyChangeEventFrame c h p)
         = <[IPString h := setChange c ev]> events
       ∧ aggregateFrame events (statusChangeEventFrame c h p)
         = <[IPString h := setChange c ev]> events
       ∧ host (setChange c ev) = host ev ∧ port (setChange c ev) = port ev).
Proof.
  intros Hperm. split.
  - intros first Hfirst.
    destruct (resolved_and_calls frames addr Hperm) as [Hres Hcalls].
    rewrite aggregate_lookup in Hres, Hcalls. rewrite Hfirst in Hres, Hcalls.
    destruct (last (notificationsFor addr frames)) as [final|] eqn:Hfinal.
    + exists (setChange (change final) first).
      split; [exact Hres|]. split; [reflexivity|]. split; [reflexivity|].
      intros c Hc. rewrite Hcalls in Hc.
      pose proof (lifecycle_specHandler (setChange (change final) first)) as Htable.
      cbn [change host port setChange] in Htable, Hc. rewrite <- Htable in Hc.
      destruct (lifecycle _) as [c'|] eqn:Hc'; [|inversion Hc].
      apply list_elem_of_singleton in Hc as ->.
      apply lifecycle_args in Hc'. exact Hc'.
    + apply last_None in Hfinal. rewrite Hfinal in Hfirst. discriminate.
  - intros events ev c h p Hev. cbn [aggregateFrame]. unfold noteChange.
    rewrite Hev. repeat split.
Qed.

(** * Further properties *)

(** ** The debouncer over its lifetime *)

Lemma debounce_written fr e :
  written (debounce fr e) =
    written e ++ [if Nat.ltb (length (events e)) eventBufferSize
                  then LogBuffering (name e) fr else LogDropping (name e) fr].
Proof. unfold debounce; cbn [events]. destruct (Nat.ltb _ _); reflexivity. Qed.

Lemma flush_written e :
  written (flush e) = written e ++ [LogFlushing (name e) (length (events e))].
Proof.
  unfold flush; cbn [events dlog].
  destruct (events e) as [|fr frs] eqn:Hev; cbn; rewrite ?Hev; reflexivity.
Qed.

Lemma bufferedFrames_snoc lines l :
  bufferedFrames (lines ++ [l]) =
    bufferedFrames lines ++ match l with LogBuffering _ f => [f] | _ => [] end.
Proof. unfold bufferedFrames. rewrite omap_app. destruct l; reflexivity. Qed.

Lemma droppedFrames_snoc lines l :
  droppedFrames (lines ++ [l]) =
    droppedFrames lines ++ match l with LogDropping _ f => [f] | _ => [] end.
Proof. unfold droppedFrames. rewrite omap_app. destruct l; reflexivity. Qed.

Lemma debounce_wellSized fr e : wellSized e → wellSized (debounce fr e).
Proof.
  intros [Hlen Hbatches]. split.
  - rewrite debounce_events.
    destruct (Nat.ltb_spec (length (events e)) eventBufferSize);
      [rewrite length_app; cbn; lia|exact Hlen].
  - rewrite debounce_spawned. exact Hbatches.
Qed.

Lemma flush_wellSized e : wellSized e → wellSized (flush e).
Proof.
  intros [Hlen Hbatches]. split.
  - rewrite flush_events_nil. cbn. lia.
  - rewrite flush_spawned. case_decide as Hnil; [exact Hbatches|].
    apply Forall_app. split; [exact Hbatches|].
    constructor; [split; assumption|constructor].
Qed.

Lemma debounce_accountedFor fr e : accountedFor e → accountedFor (debounce fr e).
Proof.
  unfold accountedFor. intros Hacc.
  rewrite debounce_written, debounce_spawned, debounce_events, bufferedFrames_snoc, Hacc.
  destruct (Nat.ltb _ _); [rewrite app_assoc|rewrite app_nil_r]; reflexivity.
Qed.

Lemma flush_accountedFor e : accountedFor e → accountedFor (flush e).
Proof.
  unfold accountedFor. intros Hacc.
  rewrite flush_written, flush_spawned, flush_events_nil, bufferedFrames_snoc, Hacc.
  rewrite !app_nil_r. case_decide as Hnil.
  - rewrite Hnil, app_nil_r. reflexivity.
  - rewrite concat_app. cbn. rewrite app_nil_r. reflexivity.
Qed.

(** Each step of a lifetime keeps a property that [debounce] and [flush]
    keep and that does not look at the timer. *)
Lemma lifetime_keeps (P : eventDeouncer → Prop) :
  (∀ fr e, P e → P (debounce fr e)) →
  (∀ e, P e → P (flusherTimerFired e)) →
  ∀ schedule e, P e → P (lifetime schedule e).
Proof.
  intros Hdebounce Hfired.
  assert (∀ schedule e, P e → P (producersOnly schedule e)) as Hafter.
  { induction schedule as [|[fr|c] rest IH]; intros e He; cbn; auto. }
  unfold lifetime. induction schedule as [|[fr|[|]] rest IH]; intros e He; cbn.
  - exact He.
  - apply IH, Hdebounce, He.
  - apply IH, Hfired, He.
  - apply Hafter, He.
Qed.

Lemma flusherTimerFired_wellSized e : wellSized e → wellSized (flusherTimerFired e).
Proof. intros He. apply flush_wellSized. exact He. Qed.

Lemma flusherTimerFired_accountedFor e : accountedFor e → accountedFor (flusherTimerFired e).
Proof. intros He. apply flush_accountedFor. exact He. Qed.

Lemma lifetime_wellSized schedule e : wellSized e → wellSized (lifetime schedule e).
Proof.
  apply (lifetime_keeps wellSized);
    auto using debounce_wellSized, flusherTimerFired_wellSized.
Qed.

Lemma lifetime_within_capacity schedule e :
  length (events e) ≤ eventBufferSize →
  length (events (lifetime schedule e)) ≤ eventBufferSize.
Proof.
  apply (lifetime_keeps (fun e => length (events e) ≤ eventBufferSize)).
  - intros fr e0 Hlen. rewrite debounce_events.
    destruct (Nat.ltb_spec (length (events e0)) eventBufferSize);
      [rewrite length_app; cbn; lia|exact Hlen].
  - intros e0 _. rewrite flusherTimerFired_events_nil. cbn. lia.
Qed.

(** X1. Whatever producers and the flusher do, and in whatever order, a
    pending buffer that starts within the capacity of 1000 events never grows
    beyond it. *)
Theorem buffer_never_exceeds_capacity (schedule : list action) (e : eventDeouncer) :
  length (events e) ≤ eventBufferSize →
  length (events (lifetime schedule e)) ≤ 1000.
Proof. apply lifetime_within_capacity. Qed.

(** X2. Over any lifetime of a debouncer that starts within capacity, every
    batch handed to the callback is non-empty and has at most 1000 events. *)
Theorem batches_nonempty_and_bounded (schedule : list action) (e : eventDeouncer) :
  length (events e) ≤ eventBufferSize →
  Forall (fun batch => batch ≠ [] ∧ length batch ≤ eventBufferSize) (spawned e) →
  ∀ batch, batch ∈ spawned (lifetime schedule e) →
    batch ≠ [] ∧ length batch ≤ 1000.
Proof.
  intros Hlen Hbatches batch Hin.
  destruct (lifetime_wellSized schedule e (conj Hlen Hbatches)) as [_ Hall].
  rewrite Forall_forall in Hall. exact (Hall batch Hin).
Qed.

(** X3. The frames logged as buffered are, in the same order and each
    once, the frames of the delivered batches followed by the pending ones;
    every [debounce] and every flush keeps it so. *)
Theorem buffered_frames_delivered_once_in_order (schedule : list action) (e : eventDeouncer) :
  bufferedFrames (written e) = concat (spawned e) ++ events e →
  bufferedFrames (written (lifetime schedule e)) =
    concat (spawned (lifetime schedule e)) ++ events (lifetime schedule e).
Proof.
  apply (lifetime_keeps accountedFor);
    auto using debounce_accountedFor, flusherTimerFired_accountedFor.
Qed.

Lemma seen_debounce fr e :
  bufferedFrames (written (debounce fr e)) ++ droppedFrames (written (debounce fr e))
  ≡ₚ (bufferedFrames (written e) ++ droppedFrames (written e)) ++ [fr].
Proof.
  rewrite debounce_written, bufferedFrames_snoc, droppedFrames_snoc.
  destruct (Nat.ltb _ _); rewrite ?app_nil_r.
  - rewrite <- !app_assoc. apply Permutation_app_head, Permutation_app_comm.
  - rewrite app_assoc. reflexivity.
Qed.

Lemma seen_flush e :
  bufferedFrames (written (flush e)) ++ droppedFrames (written (flush e))
  = bufferedFrames (written e) ++ droppedFrames (written e).
Proof.
  rewrite flush_written, bufferedFrames_snoc, droppedFrames_snoc, !app_nil_r.
  reflexivity.
Qed.

Lemma seen_producersOnly schedule : ∀ e,
  bufferedFrames (written (producersOnly schedule e))
    ++ droppedFrames (written (producersOnly schedule e))
  ≡ₚ (bufferedFrames (written e) ++ droppedFrames (written e)) ++ produced schedule.
Proof.
  induction schedule as [|[fr|c] rest IH]; intros e; cbn [producersOnly].
  - cbn. rewrite app_nil_r. reflexivity.
  - rewrite IH, seen_debounce. change (produced (producerDebounce fr :: rest))
      with (fr :: produced rest). rewrite <- app_assoc. reflexivity.
  - rewrite IH. reflexivity.
Qed.

Lemma seen_lifetime schedule : ∀ e,
  bufferedFrames (written (lifetime schedule e))
    ++ droppedFrames (written (lifetime schedule e))
  ≡ₚ (bufferedFrames (written e) ++ droppedFrames (written e)) ++ produced schedule.
Proof.
  unfold lifetime.
  induction schedule as [|[fr|[|]] rest IH]; intros e; cbn [flusher].
  - cbn. rewrite app_nil_r. reflexivity.
  - rewrite IH, seen_debounce. change (produced (producerDebounce fr :: rest))
      with (fr :: produced rest). rewrite <- app_assoc. reflexivity.
  - rewrite IH. unfold flusherTimerFired. rewrite seen_flush. reflexivity.
  - change (produced (flusherSelect quitC :: rest)) with (produced rest).
    apply seen_producersOnly.
Qed.

(** X4. Over any lifetime of a new debouncer, the frames given to
    [debounce] are, up to order, the frames delivered to the callback, the
    frames still pending and the frames logged as dropped: none is lost without
    a log line and none is delivered twice. *)
Theorem every_event_delivered_pending_or_dropped (schedule : list action) (nm : string) :
  let e := lifetime schedule (newEventDeouncer nm) in
  concat (spawned e) ++ events e ++ droppedFrames (written e) ≡ₚ produced schedule.
Proof.
  intros e.
  assert (accountedFor e) as Hacc.
  { apply (lifetime_keeps accountedFor);
      auto using debounce_accountedFor, flusherTimerFired_accountedFor.
    reflexivity. }
  unfold accountedFor in Hacc. rewrite app_assoc, <- Hacc.
  unfold e. rewrite seen_lifetime. reflexivity.
Qed.

Lemma debounceAll_app frs1 frs2 e :
  debounceAll (frs1 ++ frs2) e = debounceAll frs2 (debounceAll frs1 e).
Proof. unfold debounceAll. apply foldl_app. Qed.

Lemma debounceAll_logs frs : ∀ e,
  length (events e) ≤ eventBufferSize →
  let room := eventBufferSize - length (events e) in
  bufferedFrames (written (debounceAll frs e)) = bufferedFrames (written e) ++ take room frs
  ∧ droppedFrames (written (debounceAll frs e)) = droppedFrames (written e) ++ drop room frs.
Proof.
  induction frs as [|fr frs IH]; intros e Hle room.
  - cbn. rewrite take_nil, drop_nil, !app_nil_r. split; reflexivity.
  - change (debounceAll (fr :: frs) e) with (debounceAll frs (debounce fr e)).
    assert (length (events (debounce fr e)) ≤ eventBufferSize) as Hle'.
    { rewrite debounce_events.
      destruct (Nat.ltb_spec (length (events e)) eventBufferSize);
        [rewrite length_app; cbn; lia|exact Hle]. }
    destruct (IH (debounce fr e) Hle') as [Hb Hd]. rewrite Hb, Hd.
    rewrite debounce_written, bufferedFrames_snoc, droppedFrames_snoc, debounce_events.
    unfold room.
    destruct (Nat.ltb_spec (length (events e)) eventBufferSize) as [Hlt|Hge].
    + rewrite length_app. cbn [length].
      replace (eventBufferSize - length (events e))
        with (S (eventBufferSize - (length (events e) + 1))) by lia.
      cbn [take drop]. rewrite app_nil_r, <- app_assoc. split; reflexivity.
    + replace (eventBufferSize - length (events e)) with 0 by lia.
      rewrite !take_0, !drop_0, !app_nil_r, <- app_assoc. split; reflexivity.
Qed.

(** X5. A run of [debounce] calls on a buffer with [room] free places
    buffers the first [room] frames, after the ones already pending, and logs
    each of the others as dropped, in call order. *)
Theorem burst_fills_the_room_and_logs_the_rest (e : eventDeouncer) (frs : list frame) :
  length (events e) ≤ eventBufferSize →
  let room := eventBufferSize - length (events e) in
  let e1 := debounceAll frs e in
  events e1 = events e ++ take room frs
  ∧ bufferedFrames (written e1) = bufferedFrames (written e) ++ take room frs
  ∧ droppedFrames (written e1) = droppedFrames (written e) ++ drop room frs
  ∧ length (droppedFrames (written e1)) =
      length (droppedFrames (written e)) + (length frs - room).
Proof.
  intros Hle room e1.
  destruct (debounceAll_logs frs e Hle) as [Hb Hd]. fold room e1 in Hb, Hd.
  split; [|split; [exact Hb|split; [exact Hd|]]].
  - unfold e1. rewrite debounceAll_events by exact Hle.
    unfold room. rewrite take_app. rewrite take_ge by exact Hle. reflexivity.
  - rewrite Hd, length_app, length_drop. reflexivity.
Qed.

Lemma producersOnly_spawned schedule : ∀ e, spawned (producersOnly schedule e) = spawned e.
Proof.
  induction schedule as [|[fr|c] rest IH]; intros e; cbn [producersOnly];
    rewrite ?IH, ?debounce_spawned; reflexivity.
Qed.

Lemma producersOnly_is_debounceAll schedule : ∀ e,
  producersOnly schedule e = debounceAll (produced schedule) e.
Proof.
  induction schedule as [|[fr|c] rest IH]; intros e; cbn [producersOnly];
    rewrite ?IH; reflexivity.
Qed.

(** X6. When the flusher takes its quit case it returns without a flush:
    the callback is never called again, whatever follows; what was pending
    stays pending, and later [debounce] calls only add to it. *)
Theorem nothing_is_delivered_after_quit (before after : list action) (e : eventDeouncer) :
  (∀ c, flusherSelect c ∈ before → c = timerC) →
  let atQuit := fst (flusher before e) in
  let final := lifetime (before ++ flusherSelect quitC :: after) e in
  final = debounceAll (produced after) atQuit
  ∧ spawned final = spawned atQuit
  ∧ ∃ later, events final = events atQuit ++ later.
Proof.
  intros Hnoquit atQuit final.
  assert (final = debounceAll (produced after) atQuit) as Hfinal.
  { unfold final, atQuit, lifetime. clear final atQuit. revert e.
    induction before as [|[fr|[|]] rest IH]; intros e; cbn [app flusher].
    - apply producersOnly_is_debounceAll.
    - apply IH. intros c Hc. apply Hnoquit. right. exact Hc.
    - apply IH. intros c Hc. apply Hnoquit. right. exact Hc.
    - specialize (Hnoquit quitC). discriminate Hnoquit. left. }
  split; [exact Hfinal|]. rewrite Hfinal. split.
  - apply debounceAll_spawned.
  - assert (∀ frs e0, ∃ later, events (debounceAll frs e0) = events e0 ++ later) as Hgrow.
    { induction frs as [|fr frs IH]; intros e0.
      - exists []. cbn. rewrite app_nil_r. reflexivity.
      - change (debounceAll (fr :: frs) e0) with (debounceAll frs (debounce fr e0)).
        destruct (IH (debounce fr e0)) as [later Hlater]. rewrite Hlater, debounce_events.
        destruct (Nat.ltb _ _); [exists (fr :: later); rewrite <- app_assoc|exists later];
          reflexivity. }
    apply Hgrow.
Qed.

(** ** Handlers one after the other *)

(** X7. After [handleRemovedNode] the ring has no host for the address,
    every other address keeps its host, the host objects are untouched, and
    the pool, the ring and the host source have been called in that order.
    Removing an absent host leaves the ring as it was, and so does removing
    twice. *)
Theorem handleRemovedNode_forgets_address (s : Session) (ip : IP) (port : Z) :
  let addr := IPString ip in
  let s' := snd (handleRemovedNode ip port s) in
  ring s' !! addr = None
  ∧ (∀ other, other ≠ addr → ring s' !! other = ring s !! other)
  ∧ hosts s' = hosts s
  ∧ trace s' = trace s ++ [PoolRemoveHost addr; RingRemoveHost addr; RefreshRing]
  ∧ (ring s !! addr = None → ring s' = ring s)
  ∧ ring (snd (handleRemovedNode ip port s')) = ring s'.
Proof.
  intros addr s'. unfold s'. run_handler. fold addr.
  split; [apply lookup_delete_eq|].
  split; [intros other Hother; apply lookup_delete_ne; congruence|].
  split; [reflexivity|].
  split; [rewrite <- !app_assoc; reflexivity|].
  split; [apply delete_id|].
  apply delete_id, lookup_delete_eq.
Qed.

(** X8. After a successful [handleNewNode] the ring holds, at the fetched
    host's address, the very host that was given to the pool; a following
    [handleNodeUp] for that address finds it, sets it Up and reports it to the
    pool, without fetching again. *)
Theorem handleNodeUp_finds_what_handleNewNode_registered
    (s : Session) (ctl : controlConn) (host : IP) (port : Z) (h : HostInfo)
    (ip' : IP) (port' : Z) :
  control s = Some ctl →
  fetchHostInfo ctl host port = Fetched h →
  IPString ip' = IPString (peer h) →
  let s1 := snd (handleNewNode host port s) in
  ∃ l before,
    ring s1 !! IPString (peer h) = Some l
    ∧ trace s1 = before ++ [PoolAddHost l; RefreshRing]
    ∧ trace (snd (handleNodeUp ip' port' s1)) =
        trace s1 ++ [RingGetHost (IPString ip'); HostSetState l NodeUp; PoolHostUp l].
Proof.
  intros Hctl Hfetch Hsame s1.
  assert (∀ l, ring s1 !! IPString (peer h) = Some l →
            trace (snd (handleNodeUp ip' port' s1)) =
              trace s1 ++ [RingGetHost (IPString ip'); HostSetState l NodeUp; PoolHostUp l])
    as Hup.
  { intros l Hl. rewrite <- Hsame in Hl. run_handler. rewrite Hl. run_handler.
    rewrite <- !app_assoc. reflexivity. }
  revert Hup. unfold s1.
  rewrite (handleNewNode_fetched s ctl host port h Hctl Hfetch).
  destruct (ring s !! IPString (peer h)) as [existing|] eqn:Hring;
    cbn [snd ring trace]; intros Hup.
  - exists existing, (trace s ++ [FetchHostInfo host port;
                                  RingAddHostIfMissing (length (hosts s));
                                  Logged (LogAlreadyHave (length (hosts s)) existing);
                                  HostUpdate existing (length (hosts s))]).
    split; [exact Hring|]. split; [rewrite <- app_assoc; reflexivity|].
    apply Hup. exact Hring.
  - exists (length (hosts s)), (trace s ++ [FetchHostInfo host port;
                                            RingAddHostIfMissing (length (hosts s))]).
    split; [apply lookup_insert_eq|]. split; [rewrite <- app_assoc; reflexivity|].
    apply Hup. apply lookup_insert_eq.
Qed.

(** X20. [handleNewNode] called twice with the same successful fetch adds
    the host to the ring at most once: the second call finds the ring's host
    for the address, updates it, registers it with the pool and leaves the
    ring as the first call left it. *)
Theorem handleNewNode_twice_adds_once
    (s : Session) (ctl : controlConn) (host : IP) (port : Z) (h : HostInfo) :
  control s = Some ctl →
  fetchHostInfo ctl host port = Fetched h →
  let s1 := snd (handleNewNode host port s) in
  let s2 := snd (handleNewNode host port s1) in
  ∃ l, ring s1 !! IPString (peer h) = Some l
     ∧ ring s2 = ring s1
     ∧ trace s2 = trace s1 ++ [FetchHostInfo host port;
                               RingAddHostIfMissing (length (hosts s1));
                               Logged (LogAlreadyHave (length (hosts s1)) l);
                               HostUpdate l (length (hosts s1));
                               PoolAddHost l; RefreshRing].
Proof.
  intros Hctl Hfetch s1 s2.
  assert (control s1 = Some ctl ∧ ∃ l, ring s1 !! IPString (peer h) = Some l)
    as [Hctl1 [l Hl]].
  { unfold s1. rewrite (handleNewNode_fetched s ctl host port h Hctl Hfetch).
    destruct (ring s !! IPString (peer h)) as [existing|] eqn:Hring; cbn [snd control ring].
    - split; [exact Hctl|]. exists existing. exact Hring.
    - split; [exact Hctl|]. exists (length (hosts s)). apply lookup_insert_eq. }
  exists l. split; [exact Hl|]. unfold s2.
  rewrite (handleNewNode_fetched s1 ctl host port h Hctl1 Hfetch), Hl.
  cbn [snd ring trace]. split; reflexivity.
Qed.

Lemma handleNodeUp_known s ip port l :
  ring s !! IPString ip = Some l →
  handleNodeUp ip port s =
    (tt, withHosts (alter (setState NodeUp) l (hosts s))
           (withTrace (trace s ++ [RingGetHost (IPString ip); HostSetState l NodeUp;
                                   PoolHostUp l]) s)).
Proof.
  intros Hl. run_handler. rewrite Hl. run_handler. rewrite <- !app_assoc. reflexivity.
Qed.

Lemma handleNodeUp_unknown s ip port :
  ring s !! IPString ip = None →
  handleNodeUp ip port s =
    handleNewNode ip port (withTrace (trace s ++ [RingGetHost (IPString ip)]) s).
Proof.
  intros Hl. unfold handleNodeUp. cbn zeta. unfold bind at 1, ring_getHost.
  rewrite Hl. reflexivity.
Qed.

Lemma handleNodeDown_known s ip port l :
  ring s !! IPString ip = Some l →
  handleNodeDown ip port s =
    (tt, withHosts (alter (setState NodeDown) l (hosts s))
           (withTrace (trace s ++ [RingGetHost (IPString ip); HostSetState l NodeDown;
                                   PoolHostDown (IPString ip)]) s)).
Proof.
  intros Hl. run_handler. rewrite Hl. run_handler. rewrite <- !app_assoc. reflexivity.
Qed.

(** X9. Once [handleRemovedNode] has run for an address, [handleNodeUp]
    for it goes the new-node way and [handleNodeDown] for it only does the
    lookup and the pool notification. *)
Theorem removed_host_is_unknown_afterwards (s : Session) (ip : IP) (port port' : Z) :
  let addr := IPString ip in
  let s1 := snd (handleRemovedNode ip port s) in
  handleNodeUp ip port' s1 =
    handleNewNode ip port' (withTrace (trace s1 ++ [RingGetHost addr]) s1)
  ∧ handleNodeDown ip port' s1 =
      (tt, withTrace (trace s1 ++ [RingGetHost addr; PoolHostDown addr]) s1).
Proof.
  intros addr s1.
  assert (ring s1 !! addr = None) as Hgone.
  { unfold s1. run_handler. apply lookup_delete_eq. }
  split.
  - apply handleNodeUp_unknown. exact Hgone.
  - run_handler. fold addr. rewrite Hgone. run_handler.
    rewrite <- !app_assoc. reflexivity.
Qed.

(** X10. For a host the ring knows, [handleNodeUp] then [handleNodeDown]
    leaves it Down and [handleNodeDown] then [handleNodeUp] leaves it Up; the
    ring and every other host object stay as they were. *)
Theorem last_of_up_and_down_decides_the_state
    (s : Session) (ip : IP) (p1 p2 : Z) (l : loc) :
  ring s !! IPString ip = Some l →
  let down := snd (handleNodeDown ip p2 (snd (handleNodeUp ip p1 s))) in
  let up := snd (handleNodeUp ip p1 (snd (handleNodeDown ip p2 s))) in
  hosts down = alter (setState NodeDown) l (hosts s)
  ∧ hosts up = alter (setState NodeUp) l (hosts s)
  ∧ ring down = ring s ∧ ring up = ring s
  ∧ (∀ l', l' ≠ l → hosts down !! l' = hosts s !! l' ∧ hosts up !! l' = hosts s !! l').
Proof.
  intros Hl down up.
  assert (hosts down = alter (setState NodeDown) l (hosts s) ∧ ring down = ring s)
    as [Hdown Hrdown].
  { unfold down. rewrite (handleNodeUp_known s ip p1 l Hl). cbn [snd].
    rewrite (handleNodeDown_known _ ip p2 l) by exact Hl. cbn [snd hosts ring withHosts withTrace].
    split; [|reflexivity]. rewrite list_alter_alter_eq. apply list_alter_ext; [|reflexivity].
    intros x _. reflexivity. }
  assert (hosts up = alter (setState NodeUp) l (hosts s) ∧ ring up = ring s)
    as [Hup Hrup].
  { unfold up. rewrite (handleNodeDown_known s ip p2 l Hl). cbn [snd].
    rewrite (handleNodeUp_known _ ip p1 l) by exact Hl. cbn [snd hosts ring withHosts withTrace].
    split; [|reflexivity]. rewrite list_alter_alter_eq. apply list_alter_ext; [|reflexivity].
    intros x _. reflexivity. }
  repeat split; try assumption.
  - rewrite Hdown. apply list_lookup_alter_ne. congruence.
  - rewrite Hup. apply list_lookup_alter_ne. congruence.
Qed.

(** ** What a pass over a batch leaves alone *)

Ltac frame_goal :=
  cbn zeta; cbn [snd nodeEvents control trace hosts withTrace withHosts withRing];
  rewrite ?length_alter, ?length_app;
  split; [reflexivity|split; [first [reflexivity|congruence]|split;
    [rewrite <- ?app_assoc; first [reflexivity|apply prefix_app_r; reflexivity]
    |cbn [length]; lia]]].

Lemma handleNewNode_frame host port s :
  let s' := snd (handleNewNode host port s) in
  nodeEvents s' = nodeEvents s ∧ control s' = control s
  ∧ trace s `prefix_of` trace s' ∧ length (hosts s) ≤ length (hosts s').
Proof.
  destruct (control s) as [ctl|] eqn:Hctl.
  - destruct (fetchHostInfo ctl host port) as [h|err] eqn:Hfetch.
    + rewrite (handleNewNode_fetched s ctl host port h Hctl Hfetch).
      destruct (ring s !! IPString (peer h)); frame_goal.
    + run_handler. rewrite Hctl, Hfetch. run_handler. frame_goal.
  - run_handler. rewrite Hctl. frame_goal.
Qed.

Lemma perform_frame c s :
  let s' := snd (perform c s) in
  nodeEvents s' = nodeEvents s ∧ control s' = control s
  ∧ trace s `prefix_of` trace s' ∧ length (hosts s) ≤ length (hosts s').
Proof.
  destruct c as [h p|ip p|ip p|ip p]; cbn [perform].
  - apply handleNewNode_frame.
  - run_handler. frame_goal.
  - destruct (ring s !! IPString ip) as [l0|] eqn:Hl.
    + rewrite (handleNodeUp_known s ip p l0 Hl). frame_goal.
    + rewrite (handleNodeUp_unknown s ip p Hl).
      pose proof (handleNewNode_frame ip p (withTrace (trace s ++ [RingGetHost (IPString ip)]) s))
        as (Hn & Hc & Ht & Hh).
      cbn [nodeEvents control trace hosts withTrace] in *.
      split; [exact Hn|]. split; [exact Hc|]. split; [|exact Hh].
      etransitivity; [|exact Ht]. apply prefix_app_r. reflexivity.
  - run_handler. destruct (ring s !! IPString ip) as [l0|]; run_handler; frame_goal.
Qed.

Lemma dispatchAll_cons entry entries s :
  dispatchAll (entry :: entries) s =
    dispatchAll entries
      (snd (match lifecycle (snd entry) with
            | Some c => perform c
            | None => ret tt
            end (withTrace (trace s ++ [dispatchLine entry]) s))).
Proof.
  cbn [dispatchAll]. unfold bind, dispatch, bind, logf, emit, dispatchLine.
  destruct (match lifecycle entry.2 with Some c => perform c | None => ret () end _)
    as [[] s1]. reflexivity.
Qed.

Lemma dispatchAll_frame entries : ∀ s,
  let s' := snd (dispatchAll entries s) in
  nodeEvents s' = nodeEvents s ∧ control s' = control s
  ∧ trace s `prefix_of` trace s' ∧ length (hosts s) ≤ length (hosts s').
Proof.
  induction entries as [|entry entries IH]; intros s; cbn zeta.
  - cbn. split; [reflexivity|]. split; [reflexivity|]. split; [reflexivity|lia].
  - rewrite dispatchAll_cons.
    set (s0 := withTrace (trace s ++ [dispatchLine entry]) s).
    assert (let s1 := snd (match lifecycle entry.2 with
                           | Some c => perform c
                           | None => ret tt
                           end s0) in
            nodeEvents s1 = nodeEvents s ∧ control s1 = control s
            ∧ trace s `prefix_of` trace s1 ∧ length (hosts s) ≤ length (hosts s1))
      as Hstep.
    { destruct (lifecycle entry.2) as [c|]; cbn zeta.
      - pose proof (perform_frame c s0) as (Hn & Hc & Ht & Hh).
        split; [exact Hn|]. split; [exact Hc|]. split; [|exact Hh].
        etransitivity; [|exact Ht]. apply prefix_app_r. reflexivity.
      - cbn. split; [reflexivity|]. split; [reflexivity|].
        split; [apply prefix_app_r; reflexivity|lia]. }
    cbn zeta in Hstep. destruct Hstep as (Hn & Hc & Ht & Hh).
    pose proof (IH (snd (match lifecycle entry.2 with
                         | Some c => perform c
                         | None => ret tt
                         end s0))) as Hrest.
    cbn zeta in Hrest. destruct Hrest as (Hn' & Hc' & Ht' & Hh').
    split; [congruence|]. split; [congruence|]. split; [etransitivity; eassumption|lia].
Qed.

(** X11. A pass of [handleNodeEvent], for any batch and any iteration
    order, leaves the debouncer and the control connection as they are, only
    adds to the calls made so far, and discards no host object. *)
Theorem handleNodeEvent_leaves_debouncer_and_control (frames : list frame) (s : Session) :
  let s' := snd (handleNodeEvent frames s) in
  nodeEvents s' = nodeEvents s
  ∧ control s' = control s
  ∧ trace s `prefix_of` trace s'
  ∧ length (hosts s) ≤ length (hosts s').
Proof. apply dispatchAll_frame. Qed.

(** ** The resolved events of a batch *)

Lemma notificationsFor_app addr frames1 frames2 :
  notificationsFor addr (frames1 ++ frames2) =
    notificationsFor addr frames1 ++ notificationsFor addr frames2.
Proof. unfold notificationsFor. rewrite omap_app, filter_app. reflexivity. Qed.

Lemma aggregate_lookup_is_Some frames addr :
  is_Some (aggregate frames !! addr) ↔ addr ∈ addresses frames.
Proof.
  rewrite aggregate_lookup. unfold addresses, notificationsFor.
  rewrite list_elem_of_fmap. split.
  - destruct (head _) as [first|] eqn:Hhead; [|intros [? [=]]].
    intros _. apply head_Some in Hhead as [rest Hrest].
    assert (first ∈ filter (fun n => IPString (host n) = addr) (omap notification frames))
      as Hin by (rewrite Hrest; left).
    apply list_elem_of_filter in Hin as [Hk Hin]. exists first. auto.
  - intros (n & Haddr & Hin).
    assert (n ∈ filter (fun n => IPString (host n) = addr) (omap notification frames))
      as Hfilter by (apply list_elem_of_filter; auto).
    destruct (filter _ _) as [|first rest] eqn:Hns; [inversion Hfilter|].
    cbn [head]. rewrite last_cons. destruct (last rest); eauto.
Qed.

(** X12. A batch without a topology or status frame (an empty one,
    or schema changes only) resolves to no event, and [handleNodeEvent] returns
    the session unchanged. *)
Theorem batch_without_node_frames_does_nothing (frames : list frame) (s : Session) :
  rangeOrder (aggregate frames) ≡ₚ map_to_list (aggregate frames) →
  omap notification frames = [] →
  aggregate frames = ∅ ∧ handleNodeEvent frames s = (tt, s).
Proof.
  intros Hperm Hnone.
  assert (aggregate frames = ∅) as Hempty.
  { apply map_eq. intros addr. rewrite aggregate_lookup, lookup_empty.
    unfold notificationsFor. rewrite Hnone. reflexivity. }
  split; [exact Hempty|]. unfold handleNodeEvent.
  rewrite Hempty, map_to_list_empty in Hperm. apply Permutation_nil_r in Hperm.
  rewrite Hempty in *. rewrite Hperm. reflexivity.
Qed.

(** X13. The keys of the map built by [handleNodeEvent] are exactly the
    addresses notified in the batch; the second loop visits each once, so it
    runs as many times as there are distinct addresses. *)
Theorem resolved_events_are_the_notified_addresses (frames : list frame) :
  rangeOrder (aggregate frames) ≡ₚ map_to_list (aggregate frames) →
  dom (aggregate frames) = list_to_set (addresses frames)
  ∧ NoDup (rangeOrder (aggregate frames)).*1
  ∧ (∀ addr, addr ∈ (rangeOrder (aggregate frames)).*1 ↔ addr ∈ addresses frames)
  ∧ length (rangeOrder (aggregate frames)) =
      size (list_to_set (addresses frames) : gset string).
Proof.
  intros Hperm.
  assert (dom (aggregate frames) = list_to_set (addresses frames)) as Hdom.
  { apply set_eq. intros addr.
    rewrite elem_of_dom, elem_of_list_to_set. apply aggregate_lookup_is_Some. }
  split; [exact Hdom|]. split; [|split].
  - rewrite Hperm. apply NoDup_fst_map_to_list.
  - intros addr. rewrite Hperm, <- aggregate_lookup_is_Some.
    rewrite list_elem_of_fmap. split.
    + intros ([k ev] & -> & Hin). apply elem_of_map_to_list in Hin. eauto.
    + intros [ev Hev]. exists (addr, ev). split; [reflexivity|].
      apply elem_of_map_to_list. exact Hev.
  - rewrite Hperm, length_map_to_list, <- Hdom. symmetry. apply size_dom.
Qed.

(** X14. A batch followed by itself resolves to the same events as the
    batch alone. *)
Theorem replayed_batch_resolves_the_same (frames : list frame) :
  aggregate (frames ++ frames) = aggregate frames.
Proof.
  apply map_eq. intros addr. rewrite !aggregate_lookup, notificationsFor_app.
  destruct (notificationsFor addr frames) as [|first rest] eqn:Hns; [reflexivity|].
  cbn [app head]. rewrite !last_cons, last_app. rewrite last_cons.
  destruct (last rest); reflexivity.
Qed.

(** X15. The resolved event of an address depends only on the
    notifications for that address, in their order: two batches that agree on
    them resolve it alike, whatever else they contain. *)
Theorem other_hosts_do_not_interfere (frames1 frames2 : list frame) (addr : string) :
  notificationsFor addr frames1 = notificationsFor addr frames2 →
  aggregate frames1 !! addr = aggregate frames2 !! addr.
Proof. intros Hsame. rewrite !aggregate_lookup, Hsame. reflexivity. Qed.

Lemma lifecycle_unhandled ev : change ev ∉ handledKinds → lifecycle ev = None.
Proof.
  intros Hkind. unfold lifecycle.
  destruct (String.eqb_spec (change ev) "NEW_NODE") as [E|_];
    [exfalso; apply Hkind; rewrite E; set_solver|].
  destruct (String.eqb_spec (change ev) "REMOVED_NODE") as [E|_];
    [exfalso; apply Hkind; rewrite E; set_solver|].
  destruct (String.eqb (change ev) "MOVED_NODE"); [reflexivity|].
  destruct (String.eqb_spec (change ev) "UP") as [E|_];
    [exfalso; apply Hkind; rewrite E; set_solver|].
  destruct (String.eqb_spec (change ev) "DOWN") as [E|_];
    [exfalso; apply Hkind; rewrite E; set_solver|].
  reflexivity.
Qed.

Lemma dispatchAll_only_logs entries : ∀ s,
  Forall (fun entry => lifecycle (snd entry) = None) entries →
  dispatchAll entries s = (tt, withTrace (trace s ++ (dispatchLine <$> entries)) s).
Proof.
  induction entries as [|entry entries IH]; intros s Hall.
  - cbn. rewrite app_nil_r. destruct s; reflexivity.
  - apply Forall_cons in Hall as [Hentry Hall].
    cbn [dispatchAll]. unfold bind at 1, dispatch, bind at 1, logf, emit.
    rewrite Hentry. unfold ret. rewrite (IH _ Hall).
    cbn [trace withTrace fmap list_fmap]. unfold withTrace; cbn.
    rewrite <- app_assoc. reflexivity.
Qed.

(** X16. When every notification of a batch has a change kind other than
    NEW_NODE, REMOVED_NODE, UP and DOWN (MOVED_NODE, or a string the switch does
    not list), [handleNodeEvent] writes its dispatch line for each resolved
    event and does nothing else. *)
Theorem unhandled_kinds_only_log (frames : list frame) (s : Session) :
  rangeOrder (aggregate frames) ≡ₚ map_to_list (aggregate frames) →
  (∀ n, n ∈ omap notification frames → change n ∉ handledKinds) →
  handleNodeEvent frames s =
    (tt, withTrace (trace s ++ (dispatchLine <$> rangeOrder (aggregate frames))) s).
Proof.
  intros Hperm Hkinds. unfold handleNodeEvent. apply dispatchAll_only_logs.
  apply Forall_forall. intros [k ev] Hin. cbn [snd].
  rewrite Hperm in Hin. apply elem_of_map_to_list in Hin.
  rewrite aggregate_lookup in Hin.
  destruct (head (notificationsFor k frames)) as [first|]; [|discriminate].
  destruct (last (notificationsFor k frames)) as [final|] eqn:Hlast; [|discriminate].
  injection Hin as <-. apply lifecycle_unhandled. cbn [change setChange].
  apply Hkinds. apply last_Some_elem_of in Hlast.
  unfold notificationsFor in Hlast. apply list_elem_of_filter in Hlast. tauto.
Qed.

(** ** The entry point over a stream of frames *)

Lemma handleEvent_state fr s :
  snd (handleEvent fr s) =
    withTrace (trace (snd (handleEvent fr s)))
      (withNodeEvents (match nodeFrame fr with
                       | Some f => debounce f (nodeEvents s)
                       | None => nodeEvents s
                       end) s).
Proof.
  unfold nodeFrame. run_handler.
  destruct (parseFrame fr) as [f|err]; [destruct f|]; reflexivity.
Qed.

Lemma handleEvent_poolCalls fr s :
  poolCalls (trace (snd (handleEvent fr s))) = poolCalls (trace s).
Proof.
  run_handler. unfold poolCalls.
  destruct (parseFrame fr) as [f|err]; [destruct f|]; run_handler;
    rewrite !List.filter_app; cbn; rewrite !app_nil_r; reflexivity.
Qed.

Lemma handleEvents_cons fr frs s :
  handleEvents (fr :: frs) s = handleEvents frs (snd (handleEvent fr s)).
Proof.
  cbn [handleEvents]. unfold bind at 1. destruct (handleEvent fr s) as [[] s1].
  reflexivity.
Qed.

(** What a sequence of [handleEvent] calls changes: the debouncer and the
    calls made so far (none of them to the pool). *)
Lemma handleEvents_run frs : ∀ s,
  nodeEvents (snd (handleEvents frs s)) = debounceAll (omap nodeFrame frs) (nodeEvents s)
  ∧ ring (snd (handleEvents frs s)) = ring s
  ∧ hosts (snd (handleEvents frs s)) = hosts s
  ∧ control (snd (handleEvents frs s)) = control s
  ∧ poolCalls (trace (snd (handleEvents frs s))) = poolCalls (trace s).
Proof.
  induction frs as [|fr frs IH]; intros s.
  - cbn. split; [reflexivity|]. split; [reflexivity|]. split; [reflexivity|].
    split; reflexivity.
  - rewrite handleEvents_cons.
    destruct (IH (snd (handleEvent fr s))) as (Hn & Hr & Hh & Hc & Hp).
    rewrite Hn, Hr, Hh, Hc, Hp, handleEvent_poolCalls, (handleEvent_state fr s).
    cbn [nodeEvents ring hosts control withTrace withNodeEvents].
    rewrite omap_step. destruct (nodeFrame fr);
      (split; [reflexivity|]; split; [reflexivity|]; split; [reflexivity|];
       split; reflexivity).
Qed.

(** X17. [handleEvent] called for a sequence of framers gives the
    debouncer exactly the topology and status frames that parsed, in call
    order; it never calls the callback, the ring, the pool or the control
    connection. *)
Theorem handleEvents_buffers_node_frames_in_order (frs : list framer) (s : Session) :
  let s' := snd (handleEvents frs s) in
  nodeEvents s' = debounceAll (omap nodeFrame frs) (nodeEvents s)
  ∧ spawned (nodeEvents s') = spawned (nodeEvents s)
  ∧ ring s' = ring s ∧ hosts s' = hosts s ∧ control s' = control s
  ∧ poolCalls (trace s') = poolCalls (trace s).
Proof.
  cbn zeta. destruct (handleEvents_run frs s) as (Hn & Hr & Hh & Hc & Hp).
  rewrite Hn at 2. rewrite debounceAll_spawned.
  split; [exact Hn|]. split; [reflexivity|]. split; [exact Hr|]. split; [exact Hh|].
  split; [exact Hc|exact Hp].
Qed.

(** X18. With an empty buffer at the start, the flush after a sequence
    of [handleEvent] calls hands the callback one batch: the topology and status
    frames that parsed, in call order, cut at 1000. *)
Theorem stream_then_flush_delivers_node_frames (frs : list framer) (s : Session) :
  events (nodeEvents s) = [] →
  omap nodeFrame frs ≠ [] →
  let s' := snd (handleEvents frs s) in
  events (nodeEvents s') = take eventBufferSize (omap nodeFrame frs)
  ∧ spawned (flush (nodeEvents s')) =
      spawned (nodeEvents s) ++ [take eventBufferSize (omap nodeFrame frs)].
Proof.
  intros Hempty Hsome s'.
  destruct (handleEvents_run frs s) as (Hn & _). fold s' in Hn.
  assert (spawned (nodeEvents s') = spawned (nodeEvents s)) as Hsp
    by (rewrite Hn; apply debounceAll_spawned).
  assert (events (nodeEvents s') = take eventBufferSize (omap nodeFrame frs)) as Hev.
  { rewrite Hn, debounceAll_events by (rewrite Hempty; cbn; lia).
    rewrite Hempty. reflexivity. }
  split; [exact Hev|]. rewrite flush_spawned, Hsp, Hev.
  case_decide as Hnil; [|reflexivity]. exfalso.
  destruct (omap nodeFrame frs) as [|f rest]; [congruence|].
  unfold eventBufferSize in Hnil. discriminate Hnil.
Qed.

Lemma dispatchAll_one entry s : dispatchAll [entry] s = dispatch entry s.
Proof.
  cbn [dispatchAll]. unfold bind at 1, ret.
  destruct (dispatch entry s) as [[] s1]. reflexivity.
Qed.

Lemma filter_keeps_all {A} (P : A → Prop) `{∀ x, Decision (P x)} (l : list A) :
  (∀ x, x ∈ l → P x) → filter P l = l.
Proof.
  induction l as [|x l IH]; intros Hall; [reflexivity|].
  rewrite filter_cons_True by (apply Hall; left).
  f_equal. apply IH. intros y Hy. apply Hall. right. exact Hy.
Qed.

Lemma filter_keeps_none {A} (P : A → Prop) `{∀ x, Decision (P x)} (l : list A) :
  (∀ x, x ∈ l → ¬ P x) → filter P l = [].
Proof.
  induction l as [|x l IH]; intros Hall; [reflexivity|].
  rewrite filter_cons_False by (apply Hall; left).
  apply IH. intros y Hy. apply Hall. right. exact Hy.
Qed.


(** X19. When all notifications of a batch are for one address,
    [handleNodeEvent] is one run of the dispatch for that address, with the
    change kind of the last notification and the host and port of the first. *)
Theorem batch_for_one_host_runs_one_dispatch
    (frames : list frame) (s : Session) (addr : string) (first final : nodeEvent) :
  rangeOrder (aggregate frames) ≡ₚ map_to_list (aggregate frames) →
  (∀ n, n ∈ omap notification frames → IPString (host n) = addr) →
  head (omap notification frames) = Some first →
  last (omap notification frames) = Some final →
  handleNodeEvent frames s =
    dispatch (addr, {| change := change final; host := host first; port := port first |}) s.
Proof.
  intros Hperm Hall Hfirst Hfinal.
  assert (notificationsFor addr frames = omap notification frames) as Hns.
  { unfold notificationsFor. apply filter_keeps_all. exact Hall. }
  assert (aggregate frames = {[ addr := setChange (change final) first ]}) as Hmap.
  { apply map_eq. intros k. rewrite aggregate_lookup.
    destruct (decide (k = addr)) as [->|Hk].
    - rewrite Hns, Hfirst, Hfinal, lookup_singleton_eq. reflexivity.
    - rewrite lookup_singleton_ne by congruence.
      assert (notificationsFor k frames = []) as ->; [|reflexivity].
      unfold notificationsFor. apply filter_keeps_none.
      intros n Hn Hkn. apply Hk. rewrite <- Hkn. apply Hall. exact Hn. }
  unfold handleNodeEvent. rewrite Hmap, map_to_list_singleton in Hperm.
  apply Permutation_singleton_r in Hperm. rewrite Hmap in *. rewrite Hperm.
  apply dispatchAll_one.
Qed.

End Events.

(** * The theorems at the sample inputs *)

Lemma debounce_burst_keeps_first_capacity_events_witness :
  let e := flusherTimerFired (debounce (otherFrame "warmup") (newEventDeouncer "nodes")) in
  let frs := replicate 1005 (statusChangeEventFrame "UP" ipA 9042) in
  events e = []
  ∧ events (debounceAll frs e) = take (length frs `min` eventBufferSize) frs
  ∧ spawned (flush (debounceAll frs e)) =
      spawned e ++ [take (length frs `min` eventBufferSize) frs].
Proof.
  intros e frs.
  assert (events e = []) as Hempty by reflexivity.
  assert (frs ≠ []) as Hne by (intros Hnil; discriminate Hnil).
  pose proof (debounce_burst_keeps_first_capacity_events e frs Hempty Hne) as H.
  cbv zeta in H. destruct H as (_ & Hev & _ & _ & Hsp & _).
  split; [exact Hempty|]. split; [exact Hev|exact Hsp].
Defined.

(** A thousand and five events in one window: a thousand are delivered in
    one batch, five drops are logged. *)
Example overflow_batch_has_capacity_events :
  let e := debounceAll (replicate 1005 (statusChangeEventFrame "UP" ipA 9042))
             (newEventDeouncer "nodes") in
  length (events e) = 1000
  ∧ List.map (@length frame) (spawned (flush e)) = [1000]
  ∧ length (List.filter (fun l => match l with LogDropping _ _ => true | _ => false end)
              (written e)) = 5.
Proof. vm_compute. repeat split. Qed.

Lemma flush_empty_calls_nothing_witness :
  (spawned (flush (newEventDeouncer "nodes")) = []
   ∧ events (flush (newEventDeouncer "nodes")) = [])
  ∧ spawned (flush (debounce (otherFrame "x") (newEventDeouncer "nodes")))
      = [[otherFrame "x"]].
Proof.
  split.
  - exact (proj1 (flush_empty_calls_nothing (newEventDeouncer "nodes")) eq_refl).
  - refine (proj2 (proj2 (flush_empty_calls_nothing
                            (debounce (otherFrame "x") (newEventDeouncer "nodes"))) _)).
    vm_compute. intros Hsame. discriminate Hsame.
Defined.

Lemma handleNodeUp_known_or_new_witness :
  trace (snd (handleNodeUp dottedDecimal takeInfo ipA 9042 knownSession)) =
    [RingGetHost "10.0.0.1"; HostSetState 0 NodeUp; PoolHostUp 0]
  ∧ hosts (snd (handleNodeUp dottedDecimal takeInfo ipA 9042 knownSession)) !! 0 =
      Some (setState NodeUp hostA)
  ∧ handleNodeUp dottedDecimal takeInfo ipA 9042 emptySession =
      handleNewNode dottedDecimal takeInfo ipA 9042
        (withTrace [RingGetHost "10.0.0.1"] emptySession).
Proof.
  destruct (handleNodeUp_known_or_new dottedDecimal takeInfo knownSession ipA 9042)
    as [Hknown _].
  destruct (Hknown 0 eq_refl) as [Hrun Hstate].
  destruct (handleNodeUp_known_or_new dottedDecimal takeInfo emptySession ipA 9042)
    as [_ Hnew].
  destruct (Hnew eq_refl) as [Hdelegates _].
  split; [rewrite Hrun; reflexivity|]. split; [exact (Hstate hostA eq_refl)|exact Hdelegates].
Defined.

Lemma handleNewNode_nothing_on_failure_witness :
  handleNewNode dottedDecimal takeInfo ipB 9042 (sessionWith None [hostA] {[ "10.0.0.1" := 0 ]})
    = (tt, sessionWith None [hostA] {[ "10.0.0.1" := 0 ]})
  ∧ let s := sessionWith (Some failing) [hostA] {[ "10.0.0.1" := 0 ]} in
    let s' := snd (handleNewNode dottedDecimal takeInfo ipB 9042 s) in
    ring s' = ring s ∧ hosts s' = hosts s ∧ poolCalls (trace s') = poolCalls (trace s)
    ∧ trace s' = trace s ++ [FetchHostInfo ipB 9042; Logged (LogFetchFailed ipB "timeout")].
Proof.
  split.
  - exact (proj1 (handleNewNode_nothing_on_failure dottedDecimal takeInfo
                    (sessionWith None [hostA] {[ "10.0.0.1" := 0 ]}) ipB 9042) eq_refl).
  - exact (proj2 (handleNewNode_nothing_on_failure dottedDecimal takeInfo
                    (sessionWith (Some failing) [hostA] {[ "10.0.0.1" := 0 ]}) ipB 9042)
             failing "timeout" eq_refl eq_refl).
Defined.

Lemma handleNodeDown_always_tells_pool_witness :
  trace (snd (handleNodeDown dottedDecimal ipA 9042 (withHosts [setState NodeUp hostA] knownSession))) =
    [RingGetHost "10.0.0.1"; HostSetState 0 NodeDown; PoolHostDown "10.0.0.1"]
  ∧ hosts (snd (handleNodeDown dottedDecimal ipA 9042 (withHosts [setState NodeUp hostA] knownSession))) !! 0 =
      Some hostA
  ∧ handleNodeDown dottedDecimal ipB 9042 knownSession =
      (tt, withTrace [RingGetHost "10.0.0.2"; PoolHostDown "10.0.0.2"] knownSession).
Proof.
  destruct (handleNodeDown_always_tells_pool dottedDecimal
              (withHosts [setState NodeUp hostA] knownSession) ipA 9042)
    as (Hknown & _ & _).
  destruct (Hknown 0 eq_refl) as [Hrun Hstate].
  destruct (handleNodeDown_always_tells_pool dottedDecimal knownSession ipB 9042)
    as (_ & Habsent & _).
  split; [rewrite Hrun; reflexivity|].
  split; [exact (Hstate (setState NodeUp hostA) eq_refl)|exact (Habsent eq_refl)].
Defined.

Lemma handleNewNode_adds_or_updates_witness :
  (let s' := snd (handleNewNode dottedDecimal takeInfo ipB 9042 knownSession) in
   ring s' = <[ "10.0.0.2" := 1 ]> (ring knownSession)
   ∧ hosts s' = [hostA; mkHost ipB 9042 NodeUp "fetched"]
   ∧ trace s' = [FetchHostInfo ipB 9042; RingAddHostIfMissing 1; PoolAddHost 1; RefreshRing])
  ∧ (let s' := snd (handleNewNode dottedDecimal takeInfo ipA 9042 knownSession) in
     ring s' = ring knownSession
     ∧ hosts s' !! 0 = Some (mkHost ipA 9042 NodeDown "fetched")
     ∧ trace s' = [FetchHostInfo ipA 9042; RingAddHostIfMissing 1;
                   Logged (LogAlreadyHave 1 0); HostUpdate 0 1;
                   PoolAddHost 0; RefreshRing]).
Proof.
  split.
  - destruct (handleNewNode_adds_or_updates dottedDecimal takeInfo knownSession
                answering ipB 9042 (mkHost ipB 9042 NodeUp "fetched") eq_refl eq_refl)
      as [Hfree _].
    exact (Hfree eq_refl).
  - destruct (handleNewNode_adds_or_updates dottedDecimal takeInfo knownSession
                answering ipA 9042 (mkHost ipA 9042 NodeUp "fetched") eq_refl eq_refl)
      as [_ Hthere].
    destruct (Hthere 0 eq_refl) as (Hring & _ & Hhost & Htrace).
    split; [exact Hring|]. split; [exact (Hhost hostA eq_refl)|exact Htrace].
Defined.

Lemma removed_and_down_ignore_port_witness :
  handleRemovedNode dottedDecimal ipA 9042 knownSession =
    handleRemovedNode dottedDecimal ipA 7000 knownSession
  ∧ handleNodeDown dottedDecimal ipA 9042 knownSession =
      handleNodeDown dottedDecimal ipA 7000 knownSession.
Proof.
  destruct (removed_and_down_ignore_port dottedDecimal knownSession ipA 7000 9042)
    as (_ & _ & Hkeyed).
  destruct (Hkeyed ipA eq_refl) as [Hremoved Hdown].
  split; [exact Hremoved|exact Hdown].
Defined.

Lemma handleNodeEvent_last_write_wins_witness :
  ∃ ev,
    resolvedFor "10.0.0.1" (map_to_list (aggregate dottedDecimal sampleBatch)) =
      [("10.0.0.1", ev)]
    ∧ change ev = "UP"
    ∧ callsFor dottedDecimal "10.0.0.1" (handlerCalls dottedDecimal map_to_list sampleBatch) =
        [CallNodeUp (host ev) (port ev)].
Proof.
  pose proof (handleNodeEvent_last_write_wins dottedDecimal takeInfo map_to_list
                sampleBatch "10.0.0.1" (reflexivity _)) as H.
  cbv zeta in H. destruct H as (_ & _ & Hdownup & _).
  apply Hdownup. vm_compute. reflexivity.
Defined.

Lemma handleNodeEvent_keeps_first_host_and_port_witness :
  ∃ ev,
    resolvedFor "10.0.0.1" (map_to_list (aggregate dottedDecimal sampleBatch)) =
      [("10.0.0.1", ev)]
    ∧ host ev = ipA ∧ port ev = 9042%Z.
Proof.
  destruct (handleNodeEvent_keeps_first_host_and_port dottedDecimal map_to_list sampleBatch
              "10.0.0.1" (reflexivity _)) as [Hfirst _].
  destruct (Hfirst (mkNodeEvent "DOWN" ipA 9042) eq_refl) as (ev & Hres & Hhost & Hport & _).
  exists ev. split; [exact Hres|]. split; [exact Hhost|exact Hport].
Defined.

(** The sample batch run on the empty session: 10.0.0.1 resolves to UP with
    the port of its first notification, is unknown to the ring and so goes
    down the new-node path; 10.0.0.2 is added as a new node. *)
Example sampleBatch_run :
  handlerCalls dottedDecimal map_to_list sampleBatch =
    [CallNodeUp ipA 9042; CallNewNode ipB 9042]
  ∧ trace (snd (handleNodeEvent dottedDecimal takeInfo map_to_list sampleBatch emptySession)) =
    [ Logged (LogHandlingDebounced "10.0.0.1" "UP");
      RingGetHost "10.0.0.1"; FetchHostInfo ipA 9042; RingAddHostIfMissing 0;
      PoolAddHost 0; RefreshRing;
      Logged (LogHandlingDebounced "10.0.0.2" "NEW_NODE");
      FetchHostInfo ipB 9042; RingAddHostIfMissing 1; PoolAddHost 1; RefreshRing ].
Proof. vm_compute. split; reflexivity. Qed.


(** * The further properties at the sample inputs *)

Lemma buffer_never_exceeds_capacity_witness :
  length (events (lifetime sampleSchedule (newEventDeouncer "nodes"))) ≤ 1000.
Proof.
  apply (buffer_never_exceeds_capacity sampleSchedule (newEventDeouncer "nodes")).
  cbn. lia.
Defined.

Lemma batches_nonempty_and_bounded_witness :
  Forall (fun batch => batch ≠ [] ∧ length batch ≤ 1000)
    (spawned (lifetime sampleSchedule (newEventDeouncer "nodes"))).
Proof.
  apply Forall_forall.
  apply (batches_nonempty_and_bounded sampleSchedule (newEventDeouncer "nodes")).
  - cbn. lia.
  - constructor.
Defined.

Lemma buffered_frames_delivered_once_in_order_witness :
  let e := lifetime sampleSchedule (newEventDeouncer "nodes") in
  bufferedFrames (written e) = concat (spawned e) ++ events e.
Proof.
  exact (buffered_frames_delivered_once_in_order sampleSchedule
           (newEventDeouncer "nodes") eq_refl).
Defined.

Lemma burst_fills_the_room_and_logs_the_rest_witness :
  let e := debounce (otherFrame "first") (newEventDeouncer "nodes") in
  let frs := replicate 1005 (statusChangeEventFrame "UP" ipA 9042) in
  events (debounceAll frs e) = events e ++ take (eventBufferSize - 1) frs
  ∧ droppedFrames (written (debounceAll frs e)) = drop (eventBufferSize - 1) frs.
Proof.
  intros e frs.
  assert (length (events e) ≤ eventBufferSize) as Hroom
    by (cbn; unfold eventBufferSize; lia).
  destruct (burst_fills_the_room_and_logs_the_rest e frs Hroom) as (Hev & _ & Hdrop & _).
  split; [exact Hev|exact Hdrop].
Defined.

Lemma nothing_is_delivered_after_quit_witness :
  let before := take 4 sampleSchedule in
  let after := drop 5 sampleSchedule in
  spawned (lifetime sampleSchedule (newEventDeouncer "nodes")) =
    spawned (fst (flusher before (newEventDeouncer "nodes"))).
Proof.
  intros before after.
  assert (∀ c, flusherSelect c ∈ before → c = timerC) as Hnoquit.
  { intros c Hc. unfold before in Hc. cbn in Hc.
    repeat (apply elem_of_cons in Hc as [Hc|Hc]; [congruence|]). inversion Hc. }
  destruct (nothing_is_delivered_after_quit before after (newEventDeouncer "nodes") Hnoquit)
    as (_ & Hspawned & _).
  exact Hspawned.
Defined.

Lemma handleRemovedNode_forgets_address_witness :
  ring (snd (handleRemovedNode dottedDecimal ipA 9042 knownSession)) !! "10.0.0.1" = None
  ∧ ring (snd (handleRemovedNode dottedDecimal ipA 9042 emptySession)) = ring emptySession.
Proof.
  split.
  - exact (proj1 (handleRemovedNode_forgets_address dottedDecimal knownSession ipA 9042)).
  - destruct (handleRemovedNode_forgets_address dottedDecimal emptySession ipA 9042)
      as (_ & _ & _ & _ & Habsent & _).
    exact (Habsent eq_refl).
Defined.

Lemma handleNodeUp_finds_what_handleNewNode_registered_witness :
  let s1 := snd (handleNewNode dottedDecimal takeInfo ipA 9042 emptySession) in
  ∃ l before,
    ring s1 !! "10.0.0.1" = Some l
    ∧ trace s1 = before ++ [PoolAddHost l; RefreshRing]
    ∧ trace (snd (handleNodeUp dottedDecimal takeInfo ipA 7000 s1)) =
        trace s1 ++ [RingGetHost "10.0.0.1"; HostSetState l NodeUp; PoolHostUp l].
Proof.
  exact (handleNodeUp_finds_what_handleNewNode_registered dottedDecimal takeInfo
           emptySession answering ipA 9042 (mkHost ipA 9042 NodeUp "fetched") ipA 7000
           eq_refl eq_refl eq_refl).
Defined.

Lemma handleNewNode_twice_adds_once_witness :
  let s1 := snd (handleNewNode dottedDecimal takeInfo ipA 9042 emptySession) in
  let s2 := snd (handleNewNode dottedDecimal takeInfo ipA 9042 s1) in
  ∃ l, ring s1 !! "10.0.0.1" = Some l ∧ ring s2 = ring s1.
Proof.
  destruct (handleNewNode_twice_adds_once dottedDecimal takeInfo emptySession answering
              ipA 9042 (mkHost ipA 9042 NodeUp "fetched") eq_refl eq_refl)
    as (l & Hl & Hring & _).
  exists l. split; [exact Hl|exact Hring].
Defined.

Lemma last_of_up_and_down_decides_the_state_witness :
  hosts (snd (handleNodeDown dottedDecimal ipA 9042
                (snd (handleNodeUp dottedDecimal takeInfo ipA 9042 knownSession))))
    = [setState NodeDown hostA]
  ∧ hosts (snd (handleNodeUp dottedDecimal takeInfo ipA 9042
                  (snd (handleNodeDown dottedDecimal ipA 9042 knownSession))))
    = [setState NodeUp hostA].
Proof.
  destruct (last_of_up_and_down_decides_the_state dottedDecimal takeInfo knownSession
              ipA 9042 9042 0 eq_refl) as (Hdown & Hup & _).
  split; [exact Hdown|exact Hup].
Defined.

Lemma batch_without_node_frames_does_nothing_witness :
  handleNodeEvent dottedDecimal takeInfo map_to_list
    [schemaChangeTable "ks.t"; otherFrame "READY"] knownSession = (tt, knownSession).
Proof.
  exact (proj2 (batch_without_node_frames_does_nothing dottedDecimal takeInfo map_to_list
                  [schemaChangeTable "ks.t"; otherFrame "READY"] knownSession
                  (reflexivity _) eq_refl)).
Defined.

Lemma resolved_events_are_the_notified_addresses_witness :
  dom (aggregate dottedDecimal sampleBatch) = list_to_set (addresses dottedDecimal sampleBatch)
  ∧ length (map_to_list (aggregate dottedDecimal sampleBatch)) =
      size (list_to_set (addresses dottedDecimal sampleBatch) : gset string).
Proof.
  destruct (resolved_events_are_the_notified_addresses dottedDecimal map_to_list sampleBatch
              (reflexivity _)) as (Hdom & _ & _ & Hlen).
  split; [exact Hdom|exact Hlen].
Defined.

Lemma other_hosts_do_not_interfere_witness :
  aggregate dottedDecimal sampleBatch !! "10.0.0.1" =
    aggregate dottedDecimal oneHostBatch !! "10.0.0.1".
Proof.
  apply (other_hosts_do_not_interfere dottedDecimal sampleBatch oneHostBatch "10.0.0.1").
  vm_compute. reflexivity.
Defined.

Lemma unhandled_kinds_only_log_witness :
  handleNodeEvent dottedDecimal takeInfo map_to_list unhandledBatch knownSession =
    (tt, withTrace (trace knownSession
                      ++ (dispatchLine <$> map_to_list (aggregate dottedDecimal unhandledBatch)))
           knownSession).
Proof.
  apply (unhandled_kinds_only_log dottedDecimal takeInfo map_to_list unhandledBatch
           knownSession (reflexivity _)).
  intros n Hn Hkind. cbn in Hn.
  repeat (apply elem_of_cons in Hn as [Hn|Hn];
          [subst n; cbn in Hkind;
           repeat (apply elem_of_cons in Hkind as [Hkind|Hkind]; [discriminate Hkind|]);
           inversion Hkind|]).
  inversion Hn.
Defined.

Lemma stream_then_flush_delivers_node_frames_witness :
  let s' := snd (handleEvents sampleFramers emptySession) in
  events (nodeEvents s') = take eventBufferSize (omap nodeFrame sampleFramers)
  ∧ spawned (flush (nodeEvents s')) = [take eventBufferSize (omap nodeFrame sampleFramers)].
Proof.
  apply (stream_then_flush_delivers_node_frames sampleFramers emptySession eq_refl).
  intros Hnil. discriminate Hnil.
Defined.

Lemma batch_for_one_host_runs_one_dispatch_witness :
  handleNodeEvent dottedDecimal takeInfo map_to_list oneHostBatch knownSession =
    dispatch dottedDecimal takeInfo ("10.0.0.1", mkNodeEvent "UP" ipA 9042) knownSession.
Proof.
  apply (batch_for_one_host_runs_one_dispatch dottedDecimal takeInfo map_to_list
           oneHostBatch knownSession "10.0.0.1"
           (mkNodeEvent "DOWN" ipA 9042) (mkNodeEvent "UP" ipA 9043) (reflexivity _)).
  - intros n Hn. cbn in Hn.
    repeat (apply elem_of_cons in Hn as [Hn|Hn]; [subst n; vm_compute; reflexivity|]).
    inversion Hn.
  - reflexivity.
  - reflexivity.
Defined.


(** The sample schedule, run: one batch before the quit, nothing after it;
    the two later events stay in the buffer. *)
Example sampleSchedule_run :
  let e := lifetime sampleSchedule (newEventDeouncer "nodes") in
  spawned e = [[statusChangeEventFrame "DOWN" ipA 9042; statusChangeEventFrame "UP" ipA 9042]]
  ∧ events e = [topologyChangeEventFrame "NEW_NODE" ipB 9042;
                statusChangeEventFrame "UP" ipB 9042].
Proof. vm_compute. split; reflexivity. Qed.

(** The sample framers, fed to [handleEvent] and flushed: the status and the
    topology frame, in that order; then the pass over that batch. *)
Example sampleFramers_run :
  let s' := snd (handleEvents sampleFramers emptySession) in
  spawned (flush (nodeEvents s')) =
    [[statusChangeEventFrame "DOWN" ipA 9042; topologyChangeEventFrame "NEW_NODE" ipB 9042]]
  ∧ handlerCalls dottedDecimal map_to_list
      [statusChangeEventFrame "DOWN" ipA 9042; topologyChangeEventFrame "NEW_NODE" ipB 9042]
    = [CallNodeDown ipA 9042; CallNewNode ipB 9042].
Proof. vm_compute. split; reflexivity. Qed.
